(** * dp-data.h: reading Mark Johnson's discriminative parsing data files

    A shallow embedding of [second-stage/programs/eval-weights/dp-data.h]
    and the properties of its readers, its copy operations and its
    decompression dispatch.

    Conventions of the embedding:
    - a [FILE*] is the list of bytes that have not been read yet;
    - [unsigned int] is an [N] below [2^32];
    - a [Float] (double) is the rational the C library's conversion
      gives for it; a [float] is the rational it stands for, and the
      f-score stored in one is rounded to the 24 bits a [float] has;
    - a [tree*] is an [option]: [None] is [NULL];
    - what goes to [std::cerr] is not modelled;
    - [assert] is compiled in ([NDEBUG] is not defined); a failed
      [assert], a null dereference, an uncaught [std::bad_alloc] and
      [exit] end the run: they are the [Crash] outcomes below. *)

From Stdlib Require Import QArith Qabs Qpower.
From Stdlib.Strings Require Import Byte String.
From stdpp Require Import gmap list.

Close Scope Q_scope.
Local Open Scope N_scope.

(** ** Outcomes of a call *)

Inductive crash : Type :=
  | AssertFailed      (* assert(e) with e false *)
  | NullDereference   (* p->m() with p == NULL *)
  | InvalidPointer    (* use or delete of a pointer that is not live *)
  | OutOfRange        (* v[i] with i >= v.size() *)
  | BadAlloc          (* std::bad_alloc thrown by a vector, caught nowhere *)
  | ExitFailure.      (* exit(EXIT_FAILURE) *)

Inductive outcome (A : Type) : Type :=
  | Ret (a : A)
  | Crash (c : crash).
Arguments Ret {A} a.
Arguments Crash {A} c.

#[global] Instance outcome_ret : MRet outcome := λ A a, Ret a.
#[global] Instance outcome_bind : MBind outcome := λ A B k m,
  match m with
  | Ret a => k a
  | Crash c => Crash c
  end.

Definition assert {A} (e : bool) (k : outcome A) : outcome A :=
  if e then k else Crash AssertFailed.

(** The object a reader leaves, [d] when the run stopped. *)
Definition returned {A} (o : outcome (bool * list byte * A)) (d : A) : A :=
  match o with
  | Ret (_, _, a) => a
  | Crash _ => d
  end.

(** The last component of what a call returns, [d] when the run
    stopped. *)
Definition result_of {R A} (o : outcome (R * A)) (d : A) : A :=
  match o with
  | Ret (_, a) => a
  | Crash _ => d
  end.

(** The first component of what a call returns, [d] when the run
    stopped. *)
Definition value_of {A R} (o : outcome (A * R)) (d : A) : A :=
  match o with
  | Ret (a, _) => a
  | Crash _ => d
  end.

(** ** The stream and the C library calls made on it *)

Definition FILE := list byte.

Definition newline : byte := x0a.

Definition is_newline (c : byte) : bool := Byte.eqb c newline.

(** [isspace] in the C locale: space, \t, \n, \v, \f, \r. *)
Definition isspace (c : byte) : bool :=
  let n := Byte.to_N c in (n =? 32) || ((9 <=? n) && (n <=? 13)).

Definition isdigit (c : byte) : bool :=
  let n := Byte.to_N c in (48 <=? n) && (n <=? 57).

Definition digit_value (c : byte) : N := Byte.to_N c - 48.

(** A white-space directive of a scanf format: reads up to the first
    byte that is not white space. *)
Fixpoint skip_space (fp : FILE) : FILE :=
  match fp with
  | c :: fp' => if isspace c then skip_space fp' else fp
  | [] => []
  end.

Fixpoint scan_digits (acc : N) (fp : FILE) : N * FILE :=
  match fp with
  | c :: fp' =>
      if isdigit c then scan_digits (10 * acc + digit_value c) fp' else (acc, fp)
  | [] => (acc, [])
  end.

Definition UINT_SIZE : N := 2 ^ 32.

Definition ULONG_SIZE : N := 2 ^ 64.

(** The value stored through an [unsigned int*].  The C standard says
    what is stored only for a value that fits; this is what glibc stores
    where [unsigned long] has 64 bits.  The digits are converted as by
    [strtoul]: [ULONG_MAX] when their value does not fit an
    [unsigned long], with or without a sign, else the value, negated in
    [unsigned long] when the item has a minus sign.  The low 32 bits of
    the result are stored. *)
Definition to_unsigned (negative : bool) (v : N) : N :=
  let ul := if ULONG_SIZE <=? v then ULONG_SIZE - 1
            else if negative then (ULONG_SIZE - v) mod ULONG_SIZE
            else v in
  ul mod UINT_SIZE.

(** The conversion [%u]: an optional sign and a non-empty run of decimal
    digits.  The input item is the longest prefix of such a sequence, so
    a sign that no digit follows is read before the match fails. *)
Definition conv_u (fp : FILE) : option N * FILE :=
  let '(negative, fp1) :=
    match fp with
    | c :: fp' =>
        if Byte.eqb c "-"%byte then (true, fp')
        else if Byte.eqb c "+"%byte then (false, fp')
        else (false, fp)
    | [] => (false, [])
    end in
  match fp1 with
  | c :: _ =>
      if isdigit c then
        let '(v, fp2) := scan_digits 0 fp1 in (Some (to_unsigned negative v), fp2)
      else (None, fp1)
  | [] => (None, [])
  end.

(** [fscanf(fp, " %u ", &n)]: [Some n] when the call returns 1.  The
    trailing white-space directive is reached only after a match. *)
Definition fscanf_u (fp : FILE) : option N * FILE :=
  match conv_u (skip_space fp) with
  | (Some n, fp') => (Some n, skip_space fp')
  | (None, fp') => (None, fp')
  end.

(** The conversion [%lf] belongs to the C library.  [conv_lf fp] gives
    the value of the floating-point item at the head of [fp], if there
    is one, and the bytes after the item. *)
Class LibC := {
  conv_lf : FILE → option Q * FILE
}.

(** [fscanf(fp, " %lf ", &x)]. *)
Definition fscanf_lf `{LibC} (fp : FILE) : option Q * FILE :=
  match conv_lf (skip_space fp) with
  | (Some x, fp') => (Some x, skip_space fp')
  | (None, fp') => (None, fp')
  end.

(** [while ((c = fgetc(fp)) != EOF && c != '\n') ;] *)
Fixpoint skip_line (fp : FILE) : FILE :=
  match fp with
  | c :: fp' => if is_newline c then fp' else skip_line fp'
  | [] => []
  end.

(** The bytes [fgets] stores when there is room for [room] of them: up
    to and including the first newline. *)
Fixpoint fgets_bytes (room : nat) (fp : FILE) : list byte * FILE :=
  match room, fp with
  | S room', c :: fp' =>
      if is_newline c then ([c], fp')
      else let '(line, rest) := fgets_bytes room' fp' in (c :: line, rest)
  | _, _ => ([], fp)
  end.

(** [fgets(buffer, size, fp)]: [None] is the [NULL] returned at end of
    file; otherwise at most [size - 1] bytes are stored. *)
Definition fgets (size : nat) (fp : FILE) : option (list byte) * FILE :=
  match fp with
  | [] => (None, [])
  | _ :: _ => let '(buffer, fp') := fgets_bytes (size - 1) fp in (Some buffer, fp')
  end.

Definition BUFFER_SIZE : nat := 4000.

(** ** tree.h: the tree reader and the bracket scorer

    [tree.h] supplies the tree type, [readtree], [tree::copy_tree] and
    [precrec_type]; dp-data.h uses them through this interface.  The
    reader and the scorer are functions of the contents of the trees
    they are given. *)
Class TreeLib := {
  tree : Type;
  (* tree* readtree(const char* buffer, bool downcase_flag) *)
  readtree : list byte → bool → option tree;
  (* precrec_type::edges, built by edges(const tree* gold) *)
  edges : Type;
  tree_edges : tree → edges;
  (* edges::nedges() *)
  edges_nedges : edges → N;
  (* the counts precrec_type(gold_edges, parse) finds for a candidate:
     (ntest, ncommon) *)
  count_edges : edges → option tree → N * N
}.

Record precrec_type := {
  ncommon : N;   (* number of edges in common *)
  ngold : N;     (* number of edges in the gold tree *)
  ntest : N      (* number of edges in the test tree *)
}.

(** Modelled from the spec: [precrec_type]'s constructor from the gold
    edges and a candidate tree is in tree.h.  It gives the candidate's
    edge count and the count of common edges, against the gold edge
    count. *)
Definition precrec `{TreeLib} (gold_edges : edges) (parse : option tree)
  : precrec_type :=
  let '(test, common) := count_edges gold_edges parse in
  {| ncommon := common; ngold := edges_nedges gold_edges; ntest := test |}.

(** *** float

    A [float] has [FLT_MANT_DIG] = 24 significant bits.  The quotients
    of two counts are far inside its range of exponents, so a [float]
    is modelled by its 24 bits and an exponent without bounds. *)
Definition FLT_MANT_DIG : Z := 24.

(** [nm / dn] rounded to the nearest integer, a tie to the even one. *)
Definition round_half_even (nm dn : Z) : Z :=
  let q := (nm / dn)%Z in
  match (2 * (nm mod dn) ?= dn)%Z with
  | Lt => q
  | Gt => (q + 1)%Z
  | Eq => if Z.even q then q else (q + 1)%Z
  end.

(** The [float] nearest to [a / b], for [b > 0].  With [A] and [B] the
    powers of two just below [a] and [b], the quotient is in the binade
    of [A / B] or in the one below it; it is rounded to an integer
    number of units in the last place of that binade. *)
Definition float_of_ratio (a b : Z) : Q :=
  if (a <=? 0)%Z then 0%Q
  else
    let A := (2 ^ Z.log2 a)%Z in
    let B := (2 ^ Z.log2 b)%Z in
    let scale := (2 ^ (FLT_MANT_DIG - 1))%Z in
    if (a * B <? b * A)%Z
    then Qred (round_half_even (a * B * scale * 2) (b * A) * A
               # Z.to_pos (B * scale * 2))
    else Qred (round_half_even (a * B * scale) (b * A) * A
               # Z.to_pos (B * scale)).

(** Modelled from the spec: [precrec_type::f_score] is in tree.h.
    [f_score = 0 if (edge_count+gold_edge_count)==0 else
    2*common/(edge_count+gold_edge_count)].  The value is held in a
    [float]: it is the quotient of the two counts rounded to one. *)
Definition precrec_f_score (pr : precrec_type) : Q :=
  if (ntest pr + ngold pr =? 0)%N then 0%Q
  else float_of_ratio (Z.of_N (2 * ncommon pr)) (Z.of_N (ntest pr + ngold pr)).

(** ** The records

    [P] is what a [tree*] field stands for: a heap location where the
    copy operations are modelled, the owned tree itself in the readers,
    which only delete the trees they own and store the fresh ones
    [readtree] returns. *)
Section Records.
Context {P : Type}.

Record parse_type := mk_parse {
  logprob : Q;          (* log probability from the parser *)
  nedges : N;           (* number of edges in parse *)
  ncorrect : N;         (* number of edges correct in parse *)
  f_score : Q;          (* f-score of this parse *)
  parse : option P      (* parse tree *)
}.

(** [parse_type()] *)
Definition parse_type_default : parse_type :=
  {| logprob := 0%Q; nedges := 0; ncorrect := 0; f_score := 0%Q; parse := None |}.

Definition set_logprob (x : Q) (p : parse_type) : parse_type :=
  {| logprob := x; nedges := nedges p; ncorrect := ncorrect p;
     f_score := f_score p; parse := parse p |}.

Definition set_parse (t : option P) (p : parse_type) : parse_type :=
  {| logprob := logprob p; nedges := nedges p; ncorrect := ncorrect p;
     f_score := f_score p; parse := t |}.

Definition set_score (pr : precrec_type) (p : parse_type) : parse_type :=
  {| logprob := logprob p; nedges := ntest pr; ncorrect := ncommon pr;
     f_score := precrec_f_score pr; parse := parse p |}.

Record sentence_type := mk_sentence {
  gold : option P;            (* gold standard parse *)
  gold_nedges : N;            (* number of edges in the gold parse *)
  max_fscore : Q;             (* the max f-score of all parses *)
  parses : list parse_type    (* vector of parses *)
}.

(** [sentence_type()] *)
Definition sentence_type_default : sentence_type :=
  {| gold := None; gold_nedges := 0; max_fscore := 0%Q; parses := [] |}.

Definition nparses (s : sentence_type) : nat := length (parses s).

Definition set_gold (t : option P) (s : sentence_type) : sentence_type :=
  {| gold := t; gold_nedges := gold_nedges s; max_fscore := max_fscore s;
     parses := parses s |}.

Definition set_gold_nedges (n : N) (s : sentence_type) : sentence_type :=
  {| gold := gold s; gold_nedges := n; max_fscore := max_fscore s;
     parses := parses s |}.

Definition set_max_fscore (x : Q) (s : sentence_type) : sentence_type :=
  {| gold := gold s; gold_nedges := gold_nedges s; max_fscore := x;
     parses := parses s |}.

Definition set_parses (l : list parse_type) (s : sentence_type) : sentence_type :=
  {| gold := gold s; gold_nedges := gold_nedges s; max_fscore := max_fscore s;
     parses := l |}.

Record corpus_type := mk_corpus {
  sentences : list sentence_type
}.

(** [corpus_type()] *)
Definition corpus_type_default : corpus_type := {| sentences := [] |}.

Definition nsentences (c : corpus_type) : nat := length (sentences c).
End Records.
Arguments parse_type : clear implicits.
Arguments sentence_type : clear implicits.
Arguments corpus_type : clear implicits.

(** [a > b] on floats. *)
Definition float_gt (a b : Q) : bool := negb (Qle_bool a b).

(** ** Memory for the vectors

    [std::vector::resize(n)] with a non-zero [n] needs the memory for
    [n] elements.  When that cannot be had, [std::bad_alloc] is thrown;
    dp-data.h catches nothing, so the run ends.  Which counts fit is
    given by the platform.  An object that holds a vector was given the
    memory for it, and a count that fits leaves room for the smaller
    ones: whether a count fits is taken not to depend on what the
    vector holds. *)
Class Memory := {
  (* a vector of n parse_type objects can be allocated *)
  parses_fit : N → bool;
  (* a vector of n sentence_type objects can be allocated *)
  sentences_fit : N → bool
}.

(** [v.resize(n)] returns. *)
Definition can_resize (fit : N → bool) (n : N) : bool := (n =? 0) || fit n.

(** ** The readers *)
Section Readers.
Context `{LibC} `{TreeLib} `{Memory}.

(** [parse_type::read]: the log probability, then the rest of the line
    as the tree, or skipped with [ignore_trees]. *)
Definition parse_type_read (fp : FILE) (downcase_flag ignore_trees : bool)
    (p : parse_type tree) : bool * FILE * parse_type tree :=
  let p := set_parse None p in
  match fscanf_lf fp with
  | (None, fp1) => (false, fp1, p)
  | (Some x, fp1) =>
      let p := set_logprob x p in
      if ignore_trees then (true, skip_line fp1, p)
      else
        match fgets BUFFER_SIZE fp1 with
        | (None, fp2) => (false, fp2, p)
        | (Some buffer, fp2) =>
            (true, fp2, set_parse (readtree buffer downcase_flag) p)
        end
  end.

(** The loop of [sentence_type::read] over [parses[i]], with [todo]
    iterations left. *)
Fixpoint read_parses (todo i : nat) (fp : FILE)
    (downcase_flag ignore_trees : bool) (gold_edges : edges)
    (s : sentence_type tree) : outcome (bool * FILE * sentence_type tree) :=
  match todo with
  | O => Ret (true, fp, s)
  | S todo' =>
      match parses s !! i with
      | None => Crash OutOfRange
      | Some p =>
          let '(ok, fp1, p1) := parse_type_read fp downcase_flag ignore_trees p in
          if ok then
            let pr := precrec gold_edges (parse p1) in
            let s1 := set_parses (<[i := set_score pr p1]> (parses s)) s in
            let f_score := precrec_f_score pr in
            let s2 := if float_gt f_score (max_fscore s1)
                      then set_max_fscore f_score s1 else s1 in
            read_parses todo' (S i) fp1 downcase_flag ignore_trees gold_edges s2
          else Ret (false, fp1, set_parses (<[i := p1]> (parses s)) s)
      end
  end.

(** [sentence_type::read]: the number of parses, the gold tree line,
    then the parses. *)
Definition sentence_type_read (fp : FILE) (downcase_flag ignore_trees : bool)
    (s : sentence_type tree) : outcome (bool * FILE * sentence_type tree) :=
  let s := set_gold None s in
  match fscanf_u fp with
  | (None, fp1) => Ret (false, drop 1000 fp1, s)
  | (Some n, fp1) =>
      let '(line_read, fp2, s) :=
        if ignore_trees then (true, skip_line fp1, s)
        else
          match fgets BUFFER_SIZE fp1 with
          | (None, fp2) => (false, fp2, s)
          | (Some buffer, fp2) =>
              (true, fp2, set_gold (readtree buffer downcase_flag) s)
          end in
      if line_read then
        match gold s with
        | None => Crash AssertFailed
        | Some g =>
            let gold_edges := tree_edges g in
            let s := set_gold_nedges (edges_nedges gold_edges) s in
            if can_resize parses_fit n then
              let s := set_parses
                         (resize (N.to_nat n) parse_type_default (parses s)) s in
              read_parses (N.to_nat n) 0 fp2 downcase_flag ignore_trees
                gold_edges s
            else Crash BadAlloc
        end
      else Ret (false, fp2, s)
  end.

(** The loop of [corpus_type::read] over [sentences[i]]. *)
Fixpoint read_sentences (todo i : nat) (fp : FILE)
    (downcase_flag ignore_trees : bool) (c : corpus_type tree)
    : outcome (bool * FILE * corpus_type tree) :=
  match todo with
  | O => Ret (true, fp, c)
  | S todo' =>
      match sentences c !! i with
      | None => Crash OutOfRange
      | Some s =>
          '(ok, fp1, s1) ← sentence_type_read fp downcase_flag ignore_trees s;
          let c1 := {| sentences := <[i := s1]> (sentences c) |} in
          if ok : bool
          then read_sentences todo' (S i) fp1 downcase_flag ignore_trees c1
          else Ret (false, fp1, c1)
      end
  end.

(** [corpus_type::read] *)
Definition corpus_type_read (fp : FILE) (downcase_flag ignore_trees : bool)
    (c : corpus_type tree) : outcome (bool * FILE * corpus_type tree) :=
  match fscanf_u fp with
  | (None, fp1) => Ret (false, fp1, c)
  | (Some n, fp1) =>
      if can_resize sentences_fit n then
        let c := {| sentences :=
                      resize (N.to_nat n) sentence_type_default (sentences c) |} in
        read_sentences (N.to_nat n) 0 fp1 downcase_flag ignore_trees c
      else Crash BadAlloc
  end.

(** [corpus_type(FILE* fp, ...)]: reads into an empty corpus and
    asserts the status. *)
Definition corpus_type_from_file (fp : FILE) (downcase_flag ignore_trees : bool)
    : outcome (FILE * corpus_type tree) :=
  '(status, fp1, c) ← corpus_type_read fp downcase_flag ignore_trees
                        corpus_type_default;
  assert status (Ret (fp1, c)).

(** [map_sentences(FILE*, proc, ...)].  [proc] is the caller's
    visitor, with its own state of type [V].  It is handed the one
    [sentence] object the loop reads into, by reference: it gives its
    new state and the sentence as it leaves it, and the next read is
    into that object. *)
Section Visitor.
Context {V : Type} (proc : V → sentence_type tree → V * sentence_type tree).

Fixpoint visit_sentences (todo : nat) (fp : FILE)
    (downcase_flag ignore_trees : bool) (sentence : sentence_type tree)
    (v : V) : outcome (bool * FILE * V) :=
  match todo with
  | O => Ret (true, fp, v)
  | S todo' =>
      '(ok, fp1, sentence1) ←
         sentence_type_read fp downcase_flag ignore_trees sentence;
      if ok : bool then
        let '(v1, sentence2) := proc v sentence1 in
        visit_sentences todo' fp1 downcase_flag ignore_trees sentence2 v1
      else Ret (false, fp1, v)
  end.

Definition corpus_type_map_sentences (fp : FILE)
    (downcase_flag ignore_trees : bool) (v : V) : outcome (N * FILE * V) :=
  match fscanf_u fp with
  | (None, fp1) => Ret (0, fp1, v)
  | (Some n, fp1) =>
      '(ok, fp2, v') ← visit_sentences (N.to_nat n) fp1 downcase_flag
                         ignore_trees sentence_type_default v;
      Ret (if ok : bool then n else 0, fp2, v')
  end.
End Visitor.
End Readers.

(** ** Notions the properties of the readers are stated with *)

(** The sentence on entry to the loop over the parses. *)
Definition sentence_before_parses `{TreeLib} (n : N) (g : tree)
    (s : sentence_type tree) : sentence_type tree :=
  {| gold := Some g; gold_nedges := edges_nedges (tree_edges g);
     max_fscore := max_fscore s;
     parses := resize (N.to_nat n) parse_type_default (parses s) |}.

(** What scoring leaves in a candidate: the counts and the f-score of
    [precrec_type] for its tree against the gold edges. *)
Definition scored `{TreeLib} (gold_edges : edges) (p : parse_type tree) : Prop :=
  p = set_score (precrec gold_edges (parse p)) p.

(** A sentence as a read that returned true leaves it: a gold tree, its
    edge count, and parses that are all scored against it. *)
Definition sentence_complete `{TreeLib} (s : sentence_type tree) : Prop :=
  ∃ g, gold s = Some g
       ∧ gold_nedges s = edges_nedges (tree_edges g)
       ∧ ∀ p, p ∈ parses s → scored (tree_edges g) p.

(** What a sentence record holds of the stream: the gold tree, its edge
    count and the parses with their trees, log probabilities, counts and
    f-scores. *)
Definition sentence_data {P} (s : sentence_type P)
    : option P * N * list (parse_type P) :=
  (gold s, gold_nedges s, parses s).

(** A visitor that accumulates: it appends a copy of each sentence it
    is handed, and leaves the sentence as it is. *)
Definition accumulate {P} (acc : list (sentence_type P)) (s : sentence_type P)
    : list (sentence_type P) * sentence_type P :=
  (acc ++ [s], s).

(** A visitor that only reads the sentence it is handed. *)
Definition reads_only {V P} (proc : V → sentence_type P → V * sentence_type P)
    : Prop :=
  ∀ v s, (proc v s).2 = s.

(** A run of reads that all return true: [sentence_reads dc ig fp objs
    fp' res] when the objects [objs], read into one after the other
    from [fp] on, are left as [res], with the stream at [fp']. *)
Inductive sentence_reads `{LibC} `{TreeLib} `{Memory} (dc ig : bool)
    : FILE → list (sentence_type tree) → FILE → list (sentence_type tree)
      → Prop :=
  | reads_done fp : sentence_reads dc ig fp [] fp []
  | reads_next fp s fp1 s1 objs fp' res :
      sentence_type_read fp dc ig s = Ret (true, fp1, s1) →
      sentence_reads dc ig fp1 objs fp' res →
      sentence_reads dc ig fp (s :: objs) fp' (s1 :: res).

(** ** The order of the specification *)

(** The order of the wire format as the specification words it: the
    gold tree line first, the count of parses second.  Only the order of
    these two reads differs from [sentence_type_read]. *)
Definition spec_sentence_read_gold_first `{LibC} `{TreeLib} `{Memory} (fp : FILE)
    (downcase_flag : bool) (s : sentence_type tree)
    : outcome (bool * FILE * sentence_type tree) :=
  let s := set_gold None s in
  match fgets BUFFER_SIZE fp with
  | (None, fp1) => Ret (false, fp1, s)
  | (Some buffer, fp1) =>
      let s := set_gold (readtree buffer downcase_flag) s in
      match fscanf_u fp1 with
      | (None, fp2) => Ret (false, drop 1000 fp2, s)
      | (Some n, fp2) =>
          match gold s with
          | None => Crash AssertFailed
          | Some g =>
              let gold_edges := tree_edges g in
              let s := set_gold_nedges (edges_nedges gold_edges) s in
              if can_resize parses_fit n then
                let s := set_parses
                           (resize (N.to_nat n) parse_type_default (parses s)) s in
                read_parses (N.to_nat n) 0 fp2 downcase_flag false gold_edges s
              else Crash BadAlloc
          end
      end
  end.

(** ** Opening a file through a decompressor *)

(** [popen(command, "r")]: the stream of the command's output, [None]
    when the process cannot be started. *)
Class Process := {
  popen : list byte → option FILE
}.

(** C strings are the bytes before the terminating NUL. *)
Definition c_str (s : String.string) : list byte := String.list_byte_of_string s.

(** [strrchr(s, c)] for [c] other than NUL: the part of [s] from the
    last occurrence of [c], [None] for [NULL]. *)
Fixpoint strrchr (s : list byte) (c : byte) : option (list byte) :=
  match s with
  | [] => None
  | b :: s' =>
      match strrchr s' c with
      | Some suffix => Some suffix
      | None => if Byte.eqb b c then Some s else None
      end
  end.

(** [tolower] in the C locale, as an [int]. *)
Definition tolower (c : byte) : Z :=
  let n := Z.of_N (Byte.to_N c) in
  if ((65 <=? n) && (n <=? 90))%Z then (n + 32)%Z else n.

(** [strcasecmp(a, b)]: the difference of the first bytes that differ
    once lowered, 0 when there is none. *)
Fixpoint strcasecmp (a b : list byte) : Z :=
  match a, b with
  | [], [] => 0
  | [], y :: _ => (0 - tolower y)%Z
  | x :: _, [] => tolower x
  | x :: a', y :: b' =>
      if (tolower x =? tolower y)%Z then strcasecmp a' b'
      else (tolower x - tolower y)%Z
  end.

Section Decompress.
Context `{Process}.

(** [corpus_type::popen_decompress].  [strcasecmp] reads through its
    first argument, which is [NULL] when the name has no dot. *)
Definition corpus_type_popen_decompress (filename : list byte) : outcome FILE :=
  match strrchr filename "."%byte with
  | None => Crash NullDereference
  | Some filesuffix =>
      let command :=
        (if (strcasecmp filesuffix (c_str ".bz2"%string) =? 0)%Z then c_str "bzcat "%string
         else if (strcasecmp filesuffix (c_str ".gz"%string) =? 0)%Z
              then c_str "gunzip -c "%string else c_str "cat "%string)
        ++ filename in
      match popen command with
      | None => Crash ExitFailure
      | Some fp => Ret fp
      end
  end.

Context `{LibC} `{TreeLib} `{Memory}.

(** [corpus_type(const char filename[], ...)] *)
Definition corpus_type_from_filename (filename : list byte)
    (downcase_flag ignore_trees : bool) : outcome (corpus_type tree) :=
  fp ← corpus_type_popen_decompress filename;
  '(successful_read, _, c) ← corpus_type_read fp downcase_flag ignore_trees
                               corpus_type_default;
  assert successful_read (Ret c).

(** [map_sentences(const char filename[], proc, ...)] *)
Definition corpus_type_map_sentences_filename {V : Type}
    (proc : V → sentence_type tree → V * sentence_type tree)
    (filename : list byte)
    (downcase_flag ignore_trees : bool) (v : V) : outcome (N * V) :=
  fp ← corpus_type_popen_decompress filename;
  '(nsentences, _, v') ← corpus_type_map_sentences proc fp downcase_flag
                           ignore_trees v;
  Ret (nsentences, v').
End Decompress.

(** ** Ownership of the trees: destructors, copies and assignments

    Here a [tree*] is a location of a heap of tree objects.  A tree is
    allocated whole, at a location that is not live, and [delete]
    releases it. *)
Definition loc := positive.

Abbreviation heap := (gmap loc).

Section Ownership.
Context {tree : Type}.

Definition M (A : Type) : Type := heap tree → outcome (A * heap tree).

#[global] Instance M_ret : MRet M := λ A a h, Ret (a, h).
#[global] Instance M_bind : MBind M := λ A B k m h,
  match m h with
  | Ret (a, h') => k a h'
  | Crash c => Crash c
  end.

(** [new tree(...)] *)
Definition new_tree (t : tree) : M loc :=
  λ h, let l := fresh (dom h) in Ret (l, <[l := t]> h).

(** [delete p] for [p] other than [NULL] *)
Definition delete_tree (l : loc) : M unit :=
  λ h, match h !! l with
       | Some _ => Ret (tt, delete l h)
       | None => Crash InvalidPointer
       end.

(** Modelled from the spec: [tree::copy_tree] is in tree.h.
    [Tree.deep_copy() -> Tree]: a new tree with the contents of the
    one it is called on. *)
Definition copy_tree (p : option loc) : M loc :=
  λ h, match p with
       | None => Crash NullDereference
       | Some l =>
           match h !! l with
           | Some t => new_tree t h
           | None => Crash InvalidPointer
           end
       end.

(** [if (p) delete p;] *)
Definition delete_if_set (p : option loc) : M unit :=
  match p with
  | Some l => delete_tree l
  | None => mret tt
  end.

(** [~parse_type()] *)
Definition parse_type_destroy (p : parse_type loc) : M unit :=
  delete_if_set (parse p).

(** [parse_type(const parse_type& dp)] *)
Definition parse_type_copy (dp : parse_type loc) : M (parse_type loc) :=
  let this := {| logprob := logprob dp; nedges := nedges dp;
                 ncorrect := ncorrect dp; f_score := f_score dp;
                 parse := None |} in
  match parse dp with
  | Some _ => l ← copy_tree (parse dp); mret (set_parse (Some l) this)
  | None => mret (set_parse None this)
  end.

(** The body of [parse_type::operator=] under [this != &dp]. *)
Definition parse_type_assign_from (this dp : parse_type loc) : M (parse_type loc) :=
  let this := {| logprob := logprob dp; nedges := nedges dp;
                 ncorrect := ncorrect dp; f_score := f_score dp;
                 parse := parse this |} in
  _ ← delete_if_set (parse this);
  l ← copy_tree (parse dp);
  mret (set_parse (Some l) this).

(** [parse_type::operator=]; the two objects are given with their
    addresses. *)
Definition parse_type_assign (this_addr dp_addr : positive)
    (this dp : parse_type loc) : M (parse_type loc) :=
  if decide (this_addr = dp_addr) then mret this
  else parse_type_assign_from this dp.

(** std::vector<parse_type>: copy construction of the elements of
    [src], in order. *)
Fixpoint vector_copy (src : list (parse_type loc)) : M (list (parse_type loc)) :=
  match src with
  | [] => mret []
  | dp :: src' =>
      p ← parse_type_copy dp;
      l ← vector_copy src';
      mret (p :: l)
  end.

(** The destructor calls over a range of elements. *)
Fixpoint vector_destroy (l : list (parse_type loc)) : M unit :=
  match l with
  | [] => mret tt
  | p :: l' => _ ← parse_type_destroy p; vector_destroy l'
  end.

(** [std::copy] over [parse_type] objects: element-wise assignment
    onto existing objects of another vector. *)
Fixpoint vector_assign_range (this src : list (parse_type loc))
    : M (list (parse_type loc)) :=
  match this, src with
  | p :: this', dp :: src' =>
      p' ← parse_type_assign_from p dp;
      l ← vector_assign_range this' src';
      mret (p' :: l)
  | _, _ => mret []
  end.

(** [std::vector<parse_type>::operator=] between two distinct
    vectors, in its three cases: new storage when [src] does not fit
    the capacity, else assignment onto the elements there are and
    destruction or construction of the rest.  The capacity of the
    destination, at least its size, is given. *)
Definition vector_assign (capacity : nat) (this src : list (parse_type loc))
    : M (list (parse_type loc)) :=
  let xlen := length src in
  if decide (capacity < xlen)%nat then
    tmp ← vector_copy src;
    _ ← vector_destroy this;
    mret tmp
  else if decide (xlen ≤ length this)%nat then
    l ← vector_assign_range (take xlen this) src;
    _ ← vector_destroy (drop xlen this);
    mret l
  else
    l ← vector_assign_range this (take (length this) src);
    rest ← vector_copy (drop (length this) src);
    mret (l ++ rest).

(** [~sentence_type()], then the destructor of its vector. *)
Definition sentence_type_destroy (s : sentence_type loc) : M unit :=
  _ ← delete_if_set (gold s);
  vector_destroy (parses s).

(** [sentence_type(const sentence_type& s)] *)
Definition sentence_type_copy (s : sentence_type loc) : M (sentence_type loc) :=
  l ← vector_copy (parses s);
  let this := {| gold := None; gold_nedges := gold_nedges s;
                 max_fscore := max_fscore s; parses := l |} in
  match gold s with
  | None => mret (set_gold None this)
  | Some _ => g ← copy_tree (gold s); mret (set_gold (Some g) this)
  end.

(** [sentence_type::operator=]; [capacity] is [parses.capacity()] of
    the destination. *)
Definition sentence_type_assign (this_addr s_addr : positive) (capacity : nat)
    (this s : sentence_type loc) : M (sentence_type loc) :=
  if decide (this_addr = s_addr) then mret this
  else
    let this := set_max_fscore (max_fscore s)
                  (set_gold_nedges (gold_nedges s) this) in
    l ← vector_assign capacity (parses this) (parses s);
    let this := set_parses l this in
    _ ← delete_if_set (gold this);
    match gold s with
    | Some _ => g ← copy_tree (gold s); mret (set_gold (Some g) this)
    | None => mret (set_gold None this)
    end.

(** The tree a record owns, read through the heap. *)
Definition owned (h : heap tree) (p : option loc) : option tree := p ≫= (h !!.).

(** The contents of a record: its fields with the trees in place of
    the pointers. *)
Definition parse_contents (h : heap tree) (p : parse_type loc) : parse_type tree :=
  {| logprob := logprob p; nedges := nedges p; ncorrect := ncorrect p;
     f_score := f_score p; parse := owned h (parse p) |}.

Definition sentence_contents (h : heap tree) (s : sentence_type loc)
    : sentence_type tree :=
  {| gold := owned h (gold s); gold_nedges := gold_nedges s;
     max_fscore := max_fscore s; parses := parse_contents h <$> parses s |}.

(** Every tree pointer of the parses of [src] is null or live. *)
Definition parses_live (h : heap tree) (src : list (parse_type loc)) : Prop :=
  Forall (λ p, ∀ l, parse p = Some l → is_Some (h !! l)) src.
End Ownership.
Arguments M : clear implicits.

(** ** The accessors of a sentence *)

(** [precrec_type::operator()(gold, parse)] and [precrec_type()] are in
    tree.h: the first adds the score of a parse against a gold tree to
    the counts it is called on, the second makes the counts a scoring
    starts from. *)
Class PrecRecLib `{TreeLib} := {
  precrec_call : precrec_type → tree → option tree → precrec_type;
  precrec_new : precrec_type
}.

Section Accessors.
Context `{PrecRecLib}.

(** [sentence_type::precrec(i, pr)] *)
Definition sentence_type_precrec (s : sentence_type tree) (i : nat)
    (pr : precrec_type) : outcome precrec_type :=
  match gold s with
  | None => Crash AssertFailed
  | Some g =>
      assert (bool_decide (i < nparses s)%nat)
        (match parses s !! i with
         | Some p => Ret (precrec_call pr g (parse p))
         | None => Crash OutOfRange
         end)
  end.

(** [sentence_type::precrec(i)] *)
Definition sentence_type_precrec_new (s : sentence_type tree) (i : nat)
    : outcome precrec_type :=
  sentence_type_precrec s i precrec_new.

(** [sentence_type::f_score(i)]: [parses[i]] is read without a test of
    [i]. *)
Definition sentence_type_f_score (s : sentence_type tree) (i : nat) : outcome Q :=
  match parses s !! i with
  | Some p => Ret (f_score p)
  | None => Crash OutOfRange
  end.
End Accessors.

(** ** A stand-in for the C library and for tree.h

    Concrete streams are run with these: integer log probabilities, a
    tree that is the text of its line, and a scorer that takes the
    offsets of the opening brackets of a line for its edges. *)
Module Stub.
Definition conv_int (fp : FILE) : option Q * FILE :=
  let '(negative, fp1) :=
    match fp with
    | c :: fp' => if Byte.eqb c "-"%byte then (true, fp') else (false, fp)
    | [] => (false, [])
    end in
  match fp1 with
  | c :: _ =>
      if isdigit c then
        let '(v, fp2) := scan_digits 0 fp1 in
        (Some (inject_Z (if negative then - Z.of_N v else Z.of_N v)), fp2)
      else (None, fp1)
  | [] => (None, [])
  end.

#[export] Instance libc : LibC := {| conv_lf := conv_int |}.

Definition is_open (c : byte) : bool := Byte.eqb c "("%byte.

Fixpoint open_offsets (i : nat) (text : list byte) : list nat :=
  match text with
  | c :: text' =>
      if is_open c then i :: open_offsets (S i) text'
      else open_offsets (S i) text'
  | [] => []
  end.

Definition read_line_tree (buffer : list byte) (downcase_flag : bool)
    : option (list byte) :=
  match buffer with
  | c :: _ => if is_open c then Some buffer else None
  | [] => None
  end.

Definition count_offsets (gold_edges : list nat) (parse : option (list byte))
    : N * N :=
  match parse with
  | None => (0, 0)
  | Some text =>
      let test := open_offsets 0 text in
      (N.of_nat (length test),
       N.of_nat (length (filter (λ i, i ∈ gold_edges) test)))
  end.

#[export] Instance treelib : TreeLib := {|
  tree := list byte;
  readtree := read_line_tree;
  edges := list nat;
  tree_edges := open_offsets 0;
  edges_nedges := λ e, N.of_nat (length e);
  count_edges := count_offsets
|}.

(** The counts of a parse are added to the counts so far. *)
#[export] Instance precreclib : PrecRecLib := {|
  precrec_call := λ pr g parse,
    let '(test, common) := count_offsets (open_offsets 0 g) parse in
    {| ncommon := ncommon pr + common;
       ngold := ngold pr + N.of_nat (length (open_offsets 0 g));
       ntest := ntest pr + test |};
  precrec_new := {| ncommon := 0; ngold := 0; ntest := 0 |}
|}.

(** Memory for 2^24 parses in a sentence and 2^24 sentences in a
    corpus. *)
#[export] Instance memory : Memory := {|
  parses_fit := λ n, n <=? 2 ^ 24;
  sentences_fit := λ n, n <=? 2 ^ 24
|}.

(** A launcher that starts nothing: the stream it gives is the text of
    the command. *)
#[export] Instance process : Process := {| popen := λ command, Some command |}.

(** The bytes of a text given as lines. *)
Definition line (s : String.string) : list byte :=
  String.list_byte_of_string s ++ [newline].

Definition lines (l : list String.string) : FILE := concat (line <$> l).
End Stub.
Import Stub.

(** Streams the properties below are run on. *)
Module Examples.
Local Open Scope string_scope.

Definition gold_text : String.string :=
  "(S1 (S (NP (DT the) (NN cat)) (VP (VBD sat))))".

Definition other_text : String.string :=
  "(S1 (S (NP (DT the)) (VP (NN cat) (VBD sat))))".

(** Three sentences declared, two present. *)
Definition short_stream : FILE :=
  lines ["3"; "1 " ++ gold_text; "-3 " ++ gold_text; "0 " ++ gold_text].

(** Two sentences declared and present. *)
Definition two_sentences : FILE :=
  lines ["2"; "2 " ++ gold_text; "-3 " ++ gold_text; "-4 " ++ other_text;
         "0 " ++ gold_text].

(** One sentence: the count of parses and the gold tree, then the
    parse. *)
Definition one_sentence : FILE :=
  lines ["1 " ++ gold_text; "-3 " ++ gold_text].

(** Two sentences, without the count of sentences before them: one with
    the gold tree for its parse, one without a parse. *)
Definition two_records : FILE :=
  lines ["1 " ++ gold_text; "-3 " ++ gold_text; "0 " ++ gold_text].

(** The same sentence laid out gold tree line first. *)
Definition gold_first : FILE :=
  lines [gold_text; "1"; "-3 " ++ gold_text].

(** For the stand-in scorer, a gold tree of 10 edges and a parse of 8
    edges, 6 of them in the gold tree. *)
Definition ten_eight_six : FILE :=
  lines ["1 (a(b(c(d(e(f(g(h(i(j))))))))))";
         "-7 (a(b(c(d(e(f (g(h))))))))"].

(** A tree of 4102 bytes, and a parse that has it. *)
Definition long_tree : list byte :=
  (c_str "(" ++ replicate 4100 "a"%byte ++ c_str ")")%list.

Definition long_parse : FILE :=
  (c_str "-3 " ++ long_tree ++ [newline])%list.

(** A count of 4294967295 sentences, [-1] read as an [unsigned int],
    and no sentence. *)
Definition huge_corpus : FILE := lines ["-1"].

(** A corpus of a sentence that declares 4294967293 parses: [-3] read
    as an [unsigned int]. *)
Definition huge_counts : FILE :=
  lines ["1"; "-3 " ++ gold_text; "-3 " ++ gold_text].

(** A sentence without parses that has it for its gold tree. *)
Definition long_gold : FILE :=
  (c_str "0 " ++ long_tree ++ [newline])%list.

(** A read that fails on the second of two parses declared: the object
    it leaves has a second parse without a tree. *)
Definition missing_parse : FILE :=
  lines ["2 " ++ gold_text; "-3 " ++ gold_text].

(** That object in a heap, and a sentence with two parses and their
    trees to assign it to. *)
Definition some_heap : heap (list byte) :=
  <[1%positive := line gold_text]>
    (<[2%positive := line gold_text]>
       (<[3%positive := line other_text]>
          (<[4%positive := line other_text]>
             (<[5%positive := line other_text]> ∅)))).

Definition source_sentence : sentence_type loc :=
  {| gold := Some 1%positive; gold_nedges := 7; max_fscore := 1%Q;
     parses := [ {| logprob := (-3)%Q; nedges := 7; ncorrect := 7;
                    f_score := 1%Q; parse := Some 2%positive |};
                 parse_type_default ] |}.

Definition target_parse (l : loc) : parse_type loc :=
  {| logprob := (-1)%Q; nedges := 7; ncorrect := 7; f_score := 1%Q;
     parse := Some l |}.

Definition target_sentence : sentence_type loc :=
  {| gold := Some 3%positive; gold_nedges := 7; max_fscore := 1%Q;
     parses := [target_parse 4%positive; target_parse 5%positive] |}.
End Examples.

(** * Properties of the readers *)
Section ReaderFacts.
Context `{LibC} `{TreeLib} `{Memory}.

Lemma obind_ret {A B} (m : outcome A) (k : A → outcome B) (b : B) :
  m ≫= k = Ret b → ∃ a, m = Ret a ∧ k a = Ret b.
Proof. destruct m as [a|c]; simpl; [eauto | discriminate]. Qed.

(** The loop over the parses writes [parses[i]] only: the size of the
    vector, the gold tree and its edge count stay. *)
Lemma read_parses_frame todo : ∀ i fp dc ig ge s status fp' s',
  read_parses todo i fp dc ig ge s = Ret (status, fp', s') →
  length (parses s') = length (parses s)
  ∧ gold s' = gold s ∧ gold_nedges s' = gold_nedges s.
Proof.
  induction todo as [|todo IH]; intros i fp dc ig ge s status fp' s' Hr;
    simpl in Hr.
  - by inversion Hr.
  - destruct (parses s !! i) as [p|]; [|discriminate].
    destruct (parse_type_read fp dc ig p) as [[[] fp1] p1].
    + apply IH in Hr as (Hlen & Hg & Hn). revert Hlen Hg Hn.
      case (float_gt _ _); simpl; rewrite length_insert; auto.
    + inversion Hr; subst; simpl. by rewrite length_insert.
Qed.

(** Once the count [n] of parses is read, a sentence that [read]
    returns has [n] parses. *)
Lemma sentence_read_nparses fp dc ig s n fp1 status fp' s' :
  fscanf_u fp = (Some n, fp1) →
  sentence_type_read fp dc ig s = Ret (status, fp', s') →
  status = true → nparses s' = N.to_nat n.
Proof.
  intros Hn Hr ->. unfold sentence_type_read in Hr. rewrite Hn in Hr.
  destruct ig.
  - simpl in Hr. discriminate.
  - destruct (fgets BUFFER_SIZE fp1) as [[buffer|] fp2]; [|by inversion Hr].
    simpl in Hr. destruct (readtree buffer dc) as [g|]; [|discriminate].
    destruct (can_resize parses_fit n); [|discriminate].
    apply read_parses_frame in Hr as (Hlen & _). unfold nparses.
    rewrite Hlen. simpl. apply length_resize.
Qed.

Lemma read_sentences_length todo : ∀ i fp dc ig c status fp' c',
  read_sentences todo i fp dc ig c = Ret (status, fp', c') →
  nsentences c' = nsentences c.
Proof.
  induction todo as [|todo IH]; intros i fp dc ig c status fp' c' Hr;
    simpl in Hr.
  - by inversion Hr.
  - destruct (sentences c !! i) as [s|]; [|discriminate].
    apply obind_ret in Hr as ([[ok fp1] s1] & _ & Hr).
    destruct ok.
    + apply IH in Hr. rewrite Hr. unfold nsentences; simpl.
      apply length_insert.
    + inversion Hr; subst. unfold nsentences; simpl. apply length_insert.
Qed.
Lemma sentence_reads_length dc ig fp objs fp' res :
  sentence_reads dc ig fp objs fp' res → length res = length objs.
Proof. induction 1; simpl; congruence. Qed.

(** What the loop over the sentences does, read by read: [k] reads
    that return true, into the sentences from [i] on, and then the end
    of the loop or a read that returns false.  The sentences the loop
    did not reach are as they were. *)
Lemma read_sentences_trace dc ig todo : ∀ i fp c status fp' c',
  read_sentences todo i fp dc ig c = Ret (status, fp', c') →
  ∃ k fpk res,
    sentence_reads dc ig fp (take k (drop i (sentences c))) fpk res
    ∧ length res = k
    ∧ if status
      then k = todo ∧ fpk = fp'
           ∧ sentences c'
             = take i (sentences c) ++ res ++ drop (i + todo) (sentences c)
      else (k < todo)%nat
           ∧ ∃ s s1, sentences c !! (i + k)%nat = Some s
               ∧ sentence_type_read fpk dc ig s = Ret (false, fp', s1)
               ∧ sentences c'
                 = take i (sentences c) ++ res
                   ++ s1 :: drop (S (i + k)) (sentences c).
Proof.
  induction todo as [|todo IH]; intros i fp c status fp' c' Hr; simpl in Hr.
  - inversion Hr; subst. exists 0%nat, fp', []. split; [constructor|].
    split; [done|]. split; [done|]. split; [done|].
    rewrite Nat.add_0_r. simpl. by rewrite take_drop.
  - destruct (sentences c !! i) as [s|] eqn:Hs; [|discriminate].
    apply obind_ret in Hr as ([[ok fp1] s1] & Hread & Hr).
    pose proof (lookup_lt_Some _ _ _ Hs) as Hi.
    destruct ok.
    + apply IH in Hr as (k & fpk & res & Hreads & Hlen & Hrest). simpl in *.
      rewrite drop_insert_lt in Hreads by lia.
      assert (take (S i) (<[i:=s1]> (sentences c)) = take i (sentences c) ++ [s1])
        as Htake.
      { rewrite (take_S_r _ _ s1) by (by apply list_lookup_insert_eq).
        by rewrite take_insert_ge. }
      exists (S k), fpk, (s1 :: res). split.
      { rewrite (drop_S _ _ _ Hs). simpl. by econstructor. }
      split; [simpl; congruence|].
      destruct status.
      * destruct Hrest as (-> & -> & ->). split; [done|]. split; [done|].
        rewrite Htake, drop_insert_lt by lia. rewrite <- app_assoc. simpl.
        by rewrite Nat.add_succ_r.
      * destruct Hrest as (Hk & s' & s1' & Hs' & Hfail & ->).
        split; [lia|]. exists s', s1'.
        rewrite list_lookup_insert_ne in Hs' by lia.
        rewrite Nat.add_succ_r. split; [done|]. split; [done|].
        rewrite Htake, drop_insert_lt by lia. rewrite <- app_assoc. done.
    + inversion Hr; subst. exists 0%nat, fp, []. split; [constructor|].
      split; [done|]. split; [lia|]. exists s, s1. rewrite Nat.add_0_r.
      split; [done|]. split; [done|]. simpl. by apply insert_take_drop.
Qed.
End ReaderFacts.

(** ** The size of the corpus after [corpus_type::read] *)

(** C1, as amended.  Whatever [corpus_type::read] returns, once the
    header count [M] is scanned the corpus has [M] sentences: the vector
    is resized to [M] before the first sentence is read and no failure
    shrinks it.  The records read are retained: with [k] the number of
    reads that returned true, the first [k] sentences are what these
    reads left; when [read] returns true that is the whole corpus, and
    when it returns false [k < M], sentence [k] is what the read that
    returned false left and the sentences after it are as the resize
    left them.  When the first token is not a number, [read] returns
    false and leaves the corpus as it was. *)
Theorem corpus_read_nsentences `{LibC} `{TreeLib} `{Memory} fp dc ig
    (c : corpus_type tree) status fp' c' :
  corpus_type_read fp dc ig c = Ret (status, fp', c') →
  match fscanf_u fp with
  | (Some M, fp1) =>
      let resized := resize (N.to_nat M) sentence_type_default (sentences c) in
      nsentences c' = N.to_nat M
      ∧ ∃ k fpk res,
          sentence_reads dc ig fp1 (take k resized) fpk res
          ∧ length res = k
          ∧ if status
            then k = N.to_nat M ∧ fpk = fp' ∧ sentences c' = res
            else (k < N.to_nat M)%nat
                 ∧ ∃ s s1, resized !! k = Some s
                     ∧ sentence_type_read fpk dc ig s = Ret (false, fp', s1)
                     ∧ sentences c' = res ++ s1 :: drop (S k) resized
  | (None, _) => status = false ∧ c' = c
  end.
Proof.
  unfold corpus_type_read. destruct (fscanf_u fp) as [[M|] fp1]; simpl.
  - destruct (can_resize sentences_fit M); [|discriminate]. intros Hr. split.
    { apply read_sentences_length in Hr. rewrite Hr. unfold nsentences; simpl.
      apply length_resize. }
    apply read_sentences_trace in Hr as (k & fpk & res & Hreads & Hlen & Hrest).
    simpl in *. exists k, fpk, res. split; [done|]. split; [done|].
    destruct status.
    + destruct Hrest as (-> & -> & ->). split; [done|]. split; [done|].
      rewrite drop_ge by (by rewrite length_resize). apply app_nil_r.
    + destruct Hrest as (Hk & s & s1 & Hs & Hfail & ->). split; [done|].
      by exists s, s1.
  - intros [= <- <- <-]. done.
Qed.

Lemma corpus_read_nsentences_witness :
  ∃ fp' c',
    corpus_type_read Examples.two_sentences false false corpus_type_default
    = Ret (true, fp', c')
    ∧ nsentences c' = 2%nat.
Proof.
  eexists _, _. split; [vm_compute; reflexivity|].
  exact (proj1 (corpus_read_nsentences Examples.two_sentences false false
                  corpus_type_default _ _ _ eq_refl)).
Defined.

(** C1, as stated, fails: after the failed read of a stream that
    declares 3 sentences and holds 2, the corpus has 3 sentences, not
    2.  The first two are the records that were read. *)
Lemma corpus_read_short_stream_size :
  ∃ fp' c',
    corpus_type_read Examples.short_stream false false corpus_type_default
    = Ret (false, fp', c')
    ∧ nsentences c' = 3%nat ∧ nsentences c' ≠ 2%nat
    ∧ nparses <$> sentences c' = [1; 0; 0]%nat
    ∧ (λ s, if gold s is Some _ then true else false) <$> sentences c'
      = [true; true; false].
Proof.
  eexists _, _. split; [vm_compute; reflexivity|].
  split; [done|]. split; [done|]. split; reflexivity.
Qed.

(** ** Reading with [ignore_trees] *)
Section IgnoreTrees.
Context `{LibC} `{TreeLib} `{Memory}.

(** With [ignore_trees] a candidate keeps no tree and its scoring
    fields are not written. *)
Lemma parse_read_ignore_trees fp dc (p : parse_type tree) status fp' p' :
  parse_type_read fp dc true p = (status, fp', p') →
  parse p' = None ∧ nedges p' = nedges p ∧ ncorrect p' = ncorrect p
  ∧ f_score p' = f_score p.
Proof.
  unfold parse_type_read. destruct (fscanf_lf fp) as [[x|] fp1].
  - intros [= <- <- <-]. done.
  - intros [= <- <- <-]. done.
Qed.

(** With [ignore_trees] the gold line is skipped, [gold] is still
    [NULL] and [assert(gold != NULL)] stops the run as soon as the
    count of parses is read. *)
Lemma sentence_read_ignore_trees fp dc (s : sentence_type tree) :
  sentence_type_read fp dc true s =
    match fscanf_u fp with
    | (Some _, _) => Crash AssertFailed
    | (None, fp1) => Ret (false, drop 1000 fp1, set_gold None s)
    end.
Proof.
  unfold sentence_type_read. by destruct (fscanf_u fp) as [[n|] fp1].
Qed.

Lemma sentence_read_ignore_trees_never_true fp dc (s : sentence_type tree) fp' s' :
  sentence_type_read fp dc true s ≠ Ret (true, fp', s').
Proof.
  rewrite sentence_read_ignore_trees.
  by destruct (fscanf_u fp) as [[n|] fp1].
Qed.
End IgnoreTrees.

(** C7: the code does not do what the claim says.  On a well-formed
    sentence, [sentence_type::read] with [ignore_trees] does not return:
    [assert(gold != NULL)] fails. *)
Theorem sentence_read_ignore_trees_aborts :
  sentence_type_read Examples.one_sentence false true sentence_type_default
  = Crash AssertFailed
  ∧ corpus_type_read Examples.two_sentences false true corpus_type_default
    = Crash AssertFailed.
Proof. split; vm_compute; reflexivity. Qed.

(** ** The maximal f-score *)

(** C2: the code does not do what the claim says.  [read] does not
    reset [max_fscore]: a second read into the same object, as
    [map_sentences] does, keeps the 1 of the first sentence although the
    second sentence has no parse. *)
Theorem sentence_reread_keeps_max_fscore :
  ∃ fp1 s1 fp2 s2,
    sentence_type_read Examples.two_records false false sentence_type_default
    = Ret (true, fp1, s1)
    ∧ sentence_type_read fp1 false false s1 = Ret (true, fp2, s2)
    ∧ f_score <$> parses s1 = [1%Q]
    ∧ parses s2 = []
    ∧ max_fscore s2 = 1%Q.
Proof.
  eexists _, _, _, _.
  split; [vm_compute; reflexivity|].
  split; [vm_compute; reflexivity|].
  repeat split; reflexivity.
Qed.

Lemma float_gt_spec (a b : Q) :
  if float_gt a b then (b < a)%Q else (a <= b)%Q.
Proof.
  unfold float_gt. destruct (Qle_bool a b) eqn:E; simpl.
  - by apply Qle_bool_iff.
  - apply Qnot_le_lt. intros Hle%Qle_bool_iff. congruence.
Qed.

Section Scores.
Context `{LibC} `{TreeLib} `{Memory}.

(** Iterations from [i] on leave the parses below [i] alone. *)
Lemma read_parses_below todo : ∀ i fp dc ig ge s status fp' s',
  read_parses todo i fp dc ig ge s = Ret (status, fp', s') →
  ∀ k, (k < i)%nat → parses s' !! k = parses s !! k.
Proof.
  induction todo as [|todo IH]; intros i fp dc ig ge s status fp' s' Hr k Hk;
    simpl in Hr.
  - by inversion Hr.
  - destruct (parses s !! i) as [p|]; [|discriminate].
    destruct (parse_type_read fp dc ig p) as [[[] fp1] p1].
    + rewrite (IH _ _ _ _ _ _ _ _ _ Hr k); [|lia].
      case (float_gt _ _); simpl; apply list_lookup_insert_ne; lia.
    + inversion Hr; subst; simpl. apply list_lookup_insert_ne; lia.
Qed.

(** After a loop that ran to its end, every parse from [i] on is
    scored against the gold edges. *)
Lemma read_parses_scored todo : ∀ i fp dc ig ge s fp' s',
  read_parses todo i fp dc ig ge s = Ret (true, fp', s') →
  length (parses s) = (i + todo)%nat →
  ∀ k p, (i ≤ k)%nat → parses s' !! k = Some p → scored ge p.
Proof.
  induction todo as [|todo IH]; intros i fp dc ig ge s fp' s' Hr Hlen k q Hk Hq;
    simpl in Hr.
  - inversion Hr; subst. apply lookup_lt_Some in Hq. lia.
  - destruct (parses s !! i) as [p|] eqn:Hp; [|discriminate].
    destruct (parse_type_read fp dc ig p) as [[[] fp1] p1]; [|discriminate].
    destruct (decide (k = i)) as [->|Hne].
    + rewrite (read_parses_below _ _ _ _ _ _ _ _ _ _ Hr i) in Hq; [|lia].
      apply lookup_lt_Some in Hp.
      assert (q = set_score (precrec ge (parse p1)) p1) as ->.
      { revert Hq. case (float_gt _ _); simpl;
          rewrite list_lookup_insert_eq by done; congruence. }
      reflexivity.
    + refine (IH (S i) _ _ _ _ _ _ _ Hr _ k q _ Hq); [|lia].
      case (float_gt _ _); simpl; rewrite length_insert; lia.
Qed.

(** The running maximum: it never decreases, it bounds the f-scores
    of the parses read, and it is the value on entry or one of these
    f-scores. *)
Lemma read_parses_max_fscore todo : ∀ i fp dc ig ge s fp' s',
  read_parses todo i fp dc ig ge s = Ret (true, fp', s') →
  (max_fscore s <= max_fscore s')%Q
  ∧ (∀ k p, (i ≤ k < i + todo)%nat → parses s' !! k = Some p →
       (f_score p <= max_fscore s')%Q)
  ∧ (max_fscore s' = max_fscore s
     ∨ ∃ k p, (i ≤ k)%nat ∧ parses s' !! k = Some p
              ∧ max_fscore s' = f_score p).
Proof.
  induction todo as [|todo IH]; intros i fp dc ig ge s fp' s' Hr;
    simpl in Hr.
  - inversion Hr; subst. split; [apply Qle_refl|]. split; [|by left].
    intros k p Hk. lia.
  - destruct (parses s !! i) as [p|] eqn:Hp; [|discriminate].
    destruct (parse_type_read fp dc ig p) as [[[] fp1] p1]; [|discriminate].
    apply lookup_lt_Some in Hp.
    set (pr := precrec ge (parse p1)) in *.
    set (s1 := set_parses (<[i:=set_score pr p1]> (parses s)) s) in *.
    set (s2 := if float_gt (precrec_f_score pr) (max_fscore s1)
               then set_max_fscore (precrec_f_score pr) s1 else s1) in *.
    assert (parses s2 !! i = Some (set_score pr p1)) as Hi2.
    { subst s2. case (float_gt _ _); simpl; by apply list_lookup_insert_eq. }
    assert (parses s' !! i = Some (set_score pr p1)) as Hi.
    { rewrite (read_parses_below _ _ _ _ _ _ _ _ _ _ Hr i) by lia. exact Hi2. }
    assert ((max_fscore s <= max_fscore s2)%Q
            ∧ (precrec_f_score pr <= max_fscore s2)%Q
            ∧ (max_fscore s2 = max_fscore s
               ∨ max_fscore s2 = precrec_f_score pr)) as (Hle & Hf & Hor).
    { subst s2. pose proof (float_gt_spec (precrec_f_score pr) (max_fscore s1)) as Hgt.
      destruct (float_gt _ _); simpl in *.
      - split; [by apply Qlt_le_weak|]. split; [apply Qle_refl|by right].
      - split; [apply Qle_refl|]. split; [done|by left]. }
    apply IH in Hr as (Hle' & Hall & Hex).
    split; [by eapply Qle_trans|]. split.
    + intros k q Hk Hq. destruct (decide (k = i)) as [->|Hne].
      * rewrite Hi in Hq. inversion Hq; subst q. simpl.
        by eapply Qle_trans.
      * apply (Hall k); [lia|done].
    + destruct Hex as [Heq|(k & q & Hk & Hq & Heq)].
      * destruct Hor as [Hor|Hor]; [left; by rewrite Heq|].
        right. exists i, (set_score pr p1). split; [lia|].
        split; [done|]. simpl. by rewrite Heq.
      * right. exists k, q. split; [lia|done].
Qed.
End Scores.

(** ** The float of a quotient *)
Section FloatFacts.

(** Rounding moves a quotient by at most half a unit. *)
Lemma round_half_even_near (nm dn : Z) :
  (0 < dn)%Z → (0 ≤ nm)%Z →
  (0 ≤ round_half_even nm dn)%Z
  ∧ (Z.abs (2 * (round_half_even nm dn * dn - nm)) ≤ dn)%Z.
Proof.
  intros Hd Hn. unfold round_half_even.
  pose proof (Z.div_mod nm dn ltac:(lia)) as E.
  pose proof (Z.mod_pos_bound nm dn Hd) as Hr.
  pose proof (Z.div_pos nm dn Hn Hd) as Hq.
  set (q := (nm / dn)%Z) in *. set (r := (nm mod dn)%Z) in *.
  destruct (Z.compare_spec (2 * r) dn) as [C|C|C];
    [destruct (Z.even q)|..]; split; nia.
Qed.

Lemma log2_pow (a : Z) :
  (0 < a)%Z → (0 < 2 ^ Z.log2 a)%Z ∧ (2 ^ Z.log2 a ≤ a < 2 * 2 ^ Z.log2 a)%Z.
Proof.
  intros Ha. pose proof (Z.log2_spec a Ha) as [L U].
  rewrite Z.pow_succ_r in U by apply Z.log2_nonneg. lia.
Qed.

Lemma float_of_ratio_nonneg (a b : Z) : (0 < b)%Z → (0 <= float_of_ratio a b)%Q.
Proof.
  intros Hb. unfold float_of_ratio.
  destruct (Z.leb_spec a 0) as [?|Ha]; [apply Qle_refl|].
  destruct (log2_pow a Ha) as (HA & HA1). destruct (log2_pow b Hb) as (HB & HB1).
  set (A := (2 ^ Z.log2 a)%Z) in *. set (B := (2 ^ Z.log2 b)%Z) in *.
  change (2 ^ (FLT_MANT_DIG - 1))%Z with 8388608%Z.
  destruct (_ <? _)%Z; rewrite Qred_correct; unfold Qle; cbn [Qnum Qden].
  - destruct (round_half_even_near (a * B * 8388608 * 2) (b * A)) as [M0 _];
      nia.
  - destruct (round_half_even_near (a * B * 8388608) (b * A)) as [M0 _]; nia.
Qed.

(** A float is held in lowest terms: one that is equal to 0 is 0. *)
Lemma float_of_ratio_zero (a b : Z) :
  (float_of_ratio a b == 0)%Q → float_of_ratio a b = 0%Q.
Proof.
  unfold float_of_ratio. case (_ <=? _)%Z; [done|].
  case (_ <? _)%Z; intros Hz; rewrite Qred_correct in Hz;
    by apply Qred_complete in Hz.
Qed.

(** The float of a quotient differs from it by at most the quotient
    over [2^24]. *)
Lemma float_of_ratio_near (a b : Z) :
  (0 < a)%Z → (0 < b)%Z →
  (Qabs (float_of_ratio a b - (a # Z.to_pos b)) * inject_Z (2 ^ FLT_MANT_DIG)
   <= a # Z.to_pos b)%Q.
Proof.
  intros Ha Hb. unfold float_of_ratio.
  destruct (Z.leb_spec a 0) as [?|_]; [lia|].
  destruct (log2_pow a Ha) as (HA & HA1). destruct (log2_pow b Hb) as (HB & HB1).
  set (A := (2 ^ Z.log2 a)%Z) in *. set (B := (2 ^ Z.log2 b)%Z) in *.
  change (2 ^ (FLT_MANT_DIG - 1))%Z with 8388608%Z.
  change (2 ^ FLT_MANT_DIG)%Z with 16777216%Z.
  assert (K : (b * A ≤ 2 * (a * B))%Z) by nia.
  destruct (Z.ltb_spec (a * B) (b * A)) as [C|C]; rewrite Qred_correct.
  - destruct (round_half_even_near (a * B * 8388608 * 2) (b * A)) as [M0 M];
      [nia..|].
    set (m := round_half_even _ _) in *.
    assert (X : (Z.abs (m * A * b - a * B * 16777216) ≤ a * B)%Z) by lia.
    apply Qabs_case; intros _;
      unfold Qle, Qminus, Qplus, Qmult, Qopp, inject_Z; cbn [Qnum Qden];
      rewrite ?Pos2Z.inj_mul, ?Z2Pos.id by nia.
    + assert (0 ≤ (a * B - (m * A * b - a * B * 16777216)) * b)%Z
        by (apply Z.mul_nonneg_nonneg; lia).
      lia.
    + assert (0 ≤ (a * B + (m * A * b - a * B * 16777216)) * b)%Z
        by (apply Z.mul_nonneg_nonneg; lia).
      lia.
  - destruct (round_half_even_near (a * B * 8388608) (b * A)) as [M0 M];
      [nia..|].
    set (m := round_half_even _ _) in *.
    assert (X : (Z.abs (m * A * b - a * B * 8388608) * 2 ≤ a * B)%Z) by lia.
    apply Qabs_case; intros _;
      unfold Qle, Qminus, Qplus, Qmult, Qopp, inject_Z; cbn [Qnum Qden];
      rewrite ?Pos2Z.inj_mul, ?Z2Pos.id by nia.
    + assert (0 ≤ (a * B - 2 * (m * A * b - a * B * 8388608)) * b)%Z
        by (apply Z.mul_nonneg_nonneg; lia).
      lia.
    + assert (0 ≤ (a * B + 2 * (m * A * b - a * B * 8388608)) * b)%Z
        by (apply Z.mul_nonneg_nonneg; lia).
      lia.
Qed.

Local Open Scope Z_scope.

(** A quotient of powers of two is a power of two. *)
Lemma pow2_ratio (i j : Z) :
  0 ≤ i → 0 ≤ j → (2 ^ i # Z.to_pos (2 ^ j) == 2 ^ (i - j))%Q.
Proof.
  intros Hi Hj.
  assert (0 < 2 ^ j) by (apply Z.pow_pos_nonneg; lia).
  rewrite (Qmake_Qdiv (2 ^ i)), Z2Pos.id by done.
  rewrite !Zpower_Qpower by done. unfold Z.sub.
  rewrite Qpower_plus by done. rewrite Qpower_opp. reflexivity.
Qed.

(** The rounded quotient stays in the binade of the quotient. *)
Lemma round_half_even_range nm dn lo :
  0 < dn → 0 ≤ lo → lo * dn ≤ nm < 2 * lo * dn →
  lo ≤ round_half_even nm dn ≤ 2 * lo.
Proof.
  intros Hd Hlo Hn.
  destruct (round_half_even_near nm dn) as [M0 M]; [lia|nia|].
  set (m := round_half_even nm dn) in *. split.
  - destruct (Z.le_gt_cases lo m) as [|Hlt]; [done|].
    assert ((m + 1) * dn ≤ lo * dn) by (apply Z.mul_le_mono_nonneg_r; lia). lia.
  - destruct (Z.le_gt_cases m (2 * lo)) as [|Hlt]; [done|].
    assert ((2 * lo + 1) * dn ≤ m * dn) by (apply Z.mul_le_mono_nonneg_r; lia). lia.
Qed.

(** The float of a quotient is a float and is nearest to it: 24 bits
    times a power of two, the unit in the last place of the binade of
    the quotient, and at most half that unit away from the quotient. *)
Lemma float_of_ratio_ulp a b :
  0 < a → 0 < b →
  ∃ (m e : Z),
    2 ^ (FLT_MANT_DIG - 1) ≤ m ≤ 2 ^ FLT_MANT_DIG
    ∧ let ulp := (2 ^ e)%Q in
      (float_of_ratio a b == inject_Z m * ulp)%Q
      ∧ (Qabs (float_of_ratio a b - (a # Z.to_pos b)) * 2 <= ulp)%Q
      ∧ (inject_Z (2 ^ (FLT_MANT_DIG - 1)) * ulp <= a # Z.to_pos b)%Q
      ∧ (a # Z.to_pos b < inject_Z (2 ^ FLT_MANT_DIG) * ulp)%Q.
Proof.
  intros Ha Hb. unfold float_of_ratio.
  destruct (Z.leb_spec a 0) as [?|_]; [lia|].
  destruct (log2_pow a Ha) as (HA & HA1). destruct (log2_pow b Hb) as (HB & HB1).
  pose proof (Z.log2_nonneg a) as Hla. pose proof (Z.log2_nonneg b) as Hlb.
  change (2 ^ (FLT_MANT_DIG - 1)) with 8388608. change (2 ^ FLT_MANT_DIG) with 16777216.
  assert (K : b * 2 ^ Z.log2 a ≤ 2 * (a * 2 ^ Z.log2 b)) by nia.
  assert (K' : a * 2 ^ Z.log2 b < 2 * (b * 2 ^ Z.log2 a)) by nia.
  destruct (Z.ltb_spec (a * 2 ^ Z.log2 b) (b * 2 ^ Z.log2 a)) as [C|C].
  - exists (round_half_even (a * 2 ^ Z.log2 b * 8388608 * 2) (b * 2 ^ Z.log2 a)),
      (Z.log2 a - (Z.log2 b + 24)).
    cbv zeta. rewrite <- pow2_ratio by lia. rewrite Z.pow_add_r by lia.
    change (2 ^ 24) with 16777216.
    set (A := 2 ^ Z.log2 a) in *. set (B := 2 ^ Z.log2 b) in *.
    pose proof (round_half_even_range (a * B * 8388608 * 2) (b * A) 8388608) as R.
    destruct (round_half_even_near (a * B * 8388608 * 2) (b * A)) as [M0 M]; [nia..|].
    set (m := round_half_even _ _) in *. rewrite Qred_correct.
    split; [apply R; nia|]. split; [|split; [|split]].
    + unfold Qeq, Qmult, inject_Z; cbn [Qnum Qden].
      rewrite ?Pos2Z.inj_mul, ?Z2Pos.id by nia. ring.
    + apply Qabs_case; intros _;
        unfold Qle, Qminus, Qplus, Qmult, Qopp, inject_Z; cbn [Qnum Qden];
        rewrite ?Pos2Z.inj_mul, ?Z2Pos.id by nia.
      * assert (0 ≤ (A * b - 2 * (m * A * b - a * B * 16777216)) * (B * 16777216))
          by (apply Z.mul_nonneg_nonneg; lia).
        lia.
      * assert (0 ≤ (A * b + 2 * (m * A * b - a * B * 16777216)) * (B * 16777216))
          by (apply Z.mul_nonneg_nonneg; lia).
        lia.
    + unfold Qle, Qmult, inject_Z; cbn [Qnum Qden];
        rewrite ?Pos2Z.inj_mul, ?Z2Pos.id by nia. lia.
    + unfold Qlt, Qmult, inject_Z; cbn [Qnum Qden];
        rewrite ?Pos2Z.inj_mul, ?Z2Pos.id by nia. lia.
  - exists (round_half_even (a * 2 ^ Z.log2 b * 8388608) (b * 2 ^ Z.log2 a)),
      (Z.log2 a - (Z.log2 b + 23)).
    cbv zeta. rewrite <- pow2_ratio by lia. rewrite Z.pow_add_r by lia.
    change (2 ^ 23) with 8388608.
    set (A := 2 ^ Z.log2 a) in *. set (B := 2 ^ Z.log2 b) in *.
    pose proof (round_half_even_range (a * B * 8388608) (b * A) 8388608) as R.
    destruct (round_half_even_near (a * B * 8388608) (b * A)) as [M0 M]; [nia..|].
    set (m := round_half_even _ _) in *. rewrite Qred_correct.
    split; [apply R; nia|]. split; [|split; [|split]].
    + unfold Qeq, Qmult, inject_Z; cbn [Qnum Qden].
      rewrite ?Pos2Z.inj_mul, ?Z2Pos.id by nia. ring.
    + apply Qabs_case; intros _;
        unfold Qle, Qminus, Qplus, Qmult, Qopp, inject_Z; cbn [Qnum Qden];
        rewrite ?Pos2Z.inj_mul, ?Z2Pos.id by nia.
      * assert (0 ≤ (A * b - 2 * (m * A * b - a * B * 8388608)) * (B * 8388608))
          by (apply Z.mul_nonneg_nonneg; lia).
        lia.
      * assert (0 ≤ (A * b + 2 * (m * A * b - a * B * 8388608)) * (B * 8388608))
          by (apply Z.mul_nonneg_nonneg; lia).
        lia.
    + unfold Qle, Qmult, inject_Z; cbn [Qnum Qden];
        rewrite ?Pos2Z.inj_mul, ?Z2Pos.id by nia. lia.
    + unfold Qlt, Qmult, inject_Z; cbn [Qnum Qden];
        rewrite ?Pos2Z.inj_mul, ?Z2Pos.id by nia. lia.
Qed.
End FloatFacts.

Section SentenceRead.
Context `{LibC} `{TreeLib} `{Memory}.

(** A read that returns true has read the count, then a line that
    [readtree] made a tree of, then all the parses. *)
Lemma sentence_read_true_inv fp dc ig (s : sentence_type tree) fp' s' :
  sentence_type_read fp dc ig s = Ret (true, fp', s') →
  ig = false
  ∧ ∃ n fp1 buffer fp2 g,
      fscanf_u fp = (Some n, fp1)
      ∧ fgets BUFFER_SIZE fp1 = (Some buffer, fp2)
      ∧ readtree buffer dc = Some g
      ∧ read_parses (N.to_nat n) 0 fp2 dc false (tree_edges g)
          (sentence_before_parses n g s) = Ret (true, fp', s').
Proof.
  intros Hr. destruct ig.
  { by apply sentence_read_ignore_trees_never_true in Hr. }
  split; [done|]. unfold sentence_type_read in Hr.
  destruct (fscanf_u fp) as [[n|] fp1] eqn:Hn; [|discriminate].
  destruct (fgets BUFFER_SIZE fp1) as [[buffer|] fp2] eqn:Hb; [|discriminate].
  simpl in Hr. destruct (readtree buffer dc) as [g|] eqn:Hg; [|discriminate].
  destruct (can_resize parses_fit n); [|discriminate].
  by exists n, fp1, buffer, fp2, g.
Qed.

(** After a read that returns true, [max_fscore] is at least its
    value on entry, bounds the f-score of every parse, and is that
    value on entry or the f-score of one of the parses. *)
Lemma sentence_read_max_fscore fp dc ig (s : sentence_type tree) fp' s' :
  sentence_type_read fp dc ig s = Ret (true, fp', s') →
  (max_fscore s <= max_fscore s')%Q
  ∧ (∀ p, p ∈ parses s' → (f_score p <= max_fscore s')%Q)
  ∧ (max_fscore s' = max_fscore s
     ∨ ∃ p, p ∈ parses s' ∧ max_fscore s' = f_score p).
Proof.
  intros (_ & n & fp1 & buffer & fp2 & g & _ & _ & _ & Hr)%sentence_read_true_inv.
  pose proof (read_parses_frame _ _ _ _ _ _ _ _ _ _ Hr) as (Hlen & _).
  simpl in Hlen. rewrite length_resize in Hlen.
  apply read_parses_max_fscore in Hr as (Hle & Hall & Hex).
  split; [done|]. split.
  - intros p (k & Hk)%list_elem_of_lookup. apply (Hall k); [|done].
    apply lookup_lt_Some in Hk. lia.
  - destruct Hex as [Heq|(k & p & _ & Hk & Heq)]; [by left|].
    right. exists p. split; [|done]. apply list_elem_of_lookup. eauto.
Qed.

(** The parses of a sentence that was read are all scored against
    the edges of its gold tree. *)
Lemma sentence_read_scored fp dc ig (s : sentence_type tree) fp' s' :
  sentence_type_read fp dc ig s = Ret (true, fp', s') →
  ∃ g, gold s' = Some g
       ∧ gold_nedges s' = edges_nedges (tree_edges g)
       ∧ ∀ p, p ∈ parses s' → scored (tree_edges g) p.
Proof.
  intros (_ & n & fp1 & buffer & fp2 & g & _ & _ & _ & Hr)%sentence_read_true_inv.
  pose proof (read_parses_frame _ _ _ _ _ _ _ _ _ _ Hr) as (_ & Hg & Hn).
  exists g. split; [done|]. split; [done|].
  intros p (k & Hk)%list_elem_of_lookup.
  eapply (read_parses_scored _ _ _ _ _ _ _ _ _ Hr); [|apply Nat.le_0_l|exact Hk].
  simpl. apply length_resize.
Qed.

Lemma inject_N_nonneg (n : N) : (0 <= inject_Z (Z.of_N n))%Q.
Proof. change 0%Q with (inject_Z 0). rewrite <- Zle_Qle. lia. Qed.

Lemma precrec_f_score_nonneg (pr : precrec_type) : (0 <= precrec_f_score pr)%Q.
Proof.
  unfold precrec_f_score. destruct (N.eqb_spec (ntest pr + ngold pr) 0);
    [apply Qle_refl|].
  apply float_of_ratio_nonneg. lia.
Qed.

(** An f-score that is equal to 0 is the 0 a new record holds. *)
Lemma precrec_f_score_zero (pr : precrec_type) :
  (precrec_f_score pr == 0)%Q → precrec_f_score pr = 0%Q.
Proof.
  unfold precrec_f_score. case (_ =? _)%N; [done|]. apply float_of_ratio_zero.
Qed.

(** A read that finds no parse leaves [max_fscore] as it was on
    entry, whatever it was. *)
Lemma sentence_read_empty_keeps_max_fscore fp dc ig (s : sentence_type tree)
    fp' s' :
  sentence_type_read fp dc ig s = Ret (true, fp', s') →
  parses s' = [] → max_fscore s' = max_fscore s.
Proof.
  intros Hr Hnil.
  destruct (sentence_read_max_fscore _ _ _ _ _ _ Hr)
    as (_ & _ & [Heq|(p & Hp & _)]); [done|].
  rewrite Hnil in Hp. by apply not_elem_of_nil in Hp.
Qed.

(** Read into a sentence whose [max_fscore] is 0, as a new one has:
    [max_fscore] is the maximum of the f-scores of the parses, and 0
    when there is none. *)
Lemma sentence_read_fresh_max_fscore fp dc ig (s : sentence_type tree) fp' s' :
  max_fscore s = 0%Q →
  sentence_type_read fp dc ig s = Ret (true, fp', s') →
  (∀ p, p ∈ parses s' → (f_score p <= max_fscore s')%Q)
  ∧ (parses s' = [] → max_fscore s' = 0%Q)
  ∧ (parses s' ≠ [] → ∃ p, p ∈ parses s' ∧ max_fscore s' = f_score p).
Proof.
  intros H0s Hr.
  pose proof (sentence_read_max_fscore _ _ _ _ _ _ Hr) as (_ & Hall & Hex).
  pose proof (sentence_read_scored _ _ _ _ _ _ Hr) as (g & _ & _ & Hsc).
  rewrite H0s in Hex. split; [done|]. split.
  - intros Hnil. destruct Hex as [Heq|(p & Hp & _)]; [done|].
    rewrite Hnil in Hp. by apply not_elem_of_nil in Hp.
  - intros Hne. destruct Hex as [Heq|Hex]; [|done].
    destruct (parses s') as [|p l] eqn:Hl; [done|].
    exists p. split; [apply list_elem_of_here|].
    assert (p ∈ p :: l) as Hp by apply list_elem_of_here.
    pose proof (Hall p Hp) as Hle. pose proof (Hsc p Hp) as Hs.
    rewrite Heq in Hle |- *. rewrite Hs in Hle |- *. simpl in *.
    symmetry. apply precrec_f_score_zero, Qle_antisym; [done|].
    apply precrec_f_score_nonneg.
Qed.
End SentenceRead.

(** ** The f-score of a candidate *)

(** The float of a quotient of two counts, against the quotient. *)
Lemma float_of_ratio_error (a b : N) :
  b ≠ 0%N →
  let quotient := (inject_Z (Z.of_N a) / inject_Z (Z.of_N b))%Q in
  (Qabs (float_of_ratio (Z.of_N a) (Z.of_N b) - quotient)
   <= quotient / inject_Z (2 ^ FLT_MANT_DIG))%Q
  ∧ (a ≠ 0%N →
     ∃ m e : Z,
       (2 ^ (FLT_MANT_DIG - 1) ≤ m ≤ 2 ^ FLT_MANT_DIG)%Z
       ∧ (float_of_ratio (Z.of_N a) (Z.of_N b) == inject_Z m * 2 ^ e)%Q
       ∧ (Qabs (float_of_ratio (Z.of_N a) (Z.of_N b) - quotient) * 2
          <= 2 ^ e)%Q
       ∧ (inject_Z (2 ^ (FLT_MANT_DIG - 1)) * 2 ^ e <= quotient)%Q
       ∧ (quotient < inject_Z (2 ^ FLT_MANT_DIG) * 2 ^ e)%Q).
Proof.
  intros Hb quotient.
  assert (quotient == Z.of_N a # Z.to_pos (Z.of_N b))%Q as Hq.
  { subst quotient. rewrite (Qmake_Qdiv (Z.of_N a)), Z2Pos.id by lia. reflexivity. }
  split.
  - destruct (N.eq_dec a 0) as [->|Ha].
    + rewrite Hq. vm_compute. discriminate.
    + apply Qle_shift_div_l; [reflexivity|]. rewrite Hq.
      apply float_of_ratio_near; lia.
  - intros Ha.
    destruct (float_of_ratio_ulp (Z.of_N a) (Z.of_N b))
      as (m & e & Hm & Hf & Hnear & Hlo & Hhi); [lia..|].
    exists m, e. rewrite Hq. done.
Qed.

(** C6.  After a read that returns true, every parse holds the counts
    of the scorer for its tree against the gold edges, and its
    [f_score] is [2 * ncorrect / (nedges + gold_nedges)] as a [float]
    holds it, or 0 when [nedges + gold_nedges] is 0.  The [float] is
    the one nearest to the quotient: 24 bits times the unit in the last
    place of the binade of the quotient, at most half that unit and at
    most the quotient over [2^24] away from the quotient.  With 10 gold
    edges, 8 edges and 6 correct ones it is [11184811 / 2^24], within
    1e-4 of 0.6667. *)
Theorem sentence_read_f_score `{LibC} `{TreeLib} `{Memory} fp dc ig
    (s : sentence_type tree) fp' s' p :
  sentence_type_read fp dc ig s = Ret (true, fp', s') →
  p ∈ parses s' →
  let total := (nedges p + gold_nedges s')%N in
  let quotient :=
    (inject_Z (Z.of_N (2 * ncorrect p)) / inject_Z (Z.of_N total))%Q in
  (∃ g, gold s' = Some g
        ∧ gold_nedges s' = edges_nedges (tree_edges g)
        ∧ count_edges (tree_edges g) (parse p) = (nedges p, ncorrect p))
  ∧ (total = 0%N → f_score p = 0%Q)
  ∧ (total ≠ 0%N →
     f_score p = float_of_ratio (Z.of_N (2 * ncorrect p)) (Z.of_N total)
     ∧ (Qabs (f_score p - quotient)
        <= quotient / inject_Z (2 ^ FLT_MANT_DIG))%Q
     ∧ (ncorrect p ≠ 0%N →
        ∃ m e : Z,
          (2 ^ (FLT_MANT_DIG - 1) ≤ m ≤ 2 ^ FLT_MANT_DIG)%Z
          ∧ (f_score p == inject_Z m * 2 ^ e)%Q
          ∧ (Qabs (f_score p - quotient) * 2 <= 2 ^ e)%Q
          ∧ (inject_Z (2 ^ (FLT_MANT_DIG - 1)) * 2 ^ e <= quotient)%Q
          ∧ (quotient < inject_Z (2 ^ FLT_MANT_DIG) * 2 ^ e)%Q))
  ∧ (gold_nedges s' = 10%N → nedges p = 8%N → ncorrect p = 6%N →
     f_score p = (11184811 # 16777216)%Q
     ∧ (Qabs (f_score p - (6667 # 10000)) < 1 # 10000)%Q).
Proof.
  intros Hr Hp total quotient.
  destruct (sentence_read_scored _ _ _ _ _ _ Hr) as (g & Hg & Hn & Hsc).
  specialize (Hsc p Hp). unfold scored, precrec in Hsc.
  destruct (count_edges (tree_edges g) (parse p)) as [test common] eqn:Hc.
  assert (nedges p = test ∧ ncorrect p = common
          ∧ f_score p = precrec_f_score
              {| ncommon := common; ngold := gold_nedges s'; ntest := test |})
    as (Ht & Hcm & Hf).
  { rewrite Hsc, Hn. done. }
  subst total quotient. rewrite Ht, Hcm, Hf. unfold precrec_f_score; simpl.
  split; [by exists g|]. split; [|split].
  - intros ->. done.
  - intros Hne. rewrite (proj2 (N.eqb_neq _ _) Hne). split; [done|].
    destruct (float_of_ratio_error (2 * common) (test + gold_nedges s') Hne)
      as [Herr Hulp].
    split; [exact Herr|]. intros Hcommon. apply Hulp. lia.
  - intros -> -> ->. split; reflexivity.
Qed.

Lemma sentence_read_f_score_witness :
  ∃ fp' s' p,
    sentence_type_read Examples.ten_eight_six false false sentence_type_default
    = Ret (true, fp', s')
    ∧ parses s' = [p]
    ∧ gold_nedges s' = 10%N ∧ nedges p = 8%N ∧ ncorrect p = 6%N
    ∧ (Qabs (f_score p - (6667 # 10000)) < 1 # 10000)%Q.
Proof.
  eexists _, _, _. split; [vm_compute; reflexivity|].
  split; [reflexivity|]. split; [reflexivity|]. split; [reflexivity|].
  split; [reflexivity|].
  match goal with
  | |- (Qabs (f_score ?p - _) < _)%Q =>
      refine (proj2 (proj2 (proj2 (proj2
                (sentence_read_f_score Examples.ten_eight_six false false
                   sentence_type_default _ _ p _ _))) _ _ _))
  end.
  all: try (vm_compute; reflexivity).
  apply list_elem_of_here.
Defined.

(** ** The order in which a sentence is read *)

Section Order.
Context `{LibC} `{TreeLib} `{Memory}.

(** The positions of the stream during a loop that ran to its end:
    parse [i + k] is read from position [k] and leaves the stream at
    position [k + 1]. *)
Lemma read_parses_positions todo : ∀ i fp dc ig ge s fp' s',
  read_parses todo i fp dc ig ge s = Ret (true, fp', s') →
  ∃ pos : list FILE,
    length pos = S todo ∧ pos !! 0%nat = Some fp ∧ pos !! todo = Some fp'
    ∧ ∀ k, (k < todo)%nat →
        ∃ fa fb q q',
          pos !! k = Some fa ∧ pos !! S k = Some fb
          ∧ parse_type_read fa dc ig q = (true, fb, q')
          ∧ parses s' !! (i + k)%nat
            = Some (set_score (precrec ge (parse q')) q').
Proof.
  induction todo as [|todo IH]; intros i fp dc ig ge s fp' s' Hr;
    simpl in Hr.
  - inversion Hr; subst. exists [fp']. repeat split; try done. lia.
  - destruct (parses s !! i) as [p|] eqn:Hp; [|discriminate].
    destruct (parse_type_read fp dc ig p) as [[[] fp1] p1] eqn:Hread;
      [|discriminate].
    apply lookup_lt_Some in Hp.
    assert (parses s' !! i = Some (set_score (precrec ge (parse p1)) p1)) as Hi.
    { rewrite (read_parses_below _ _ _ _ _ _ _ _ _ _ Hr i) by lia.
      case (float_gt _ _); simpl; by apply list_lookup_insert_eq. }
    apply IH in Hr as (pos & Hlen & Hhd & Hlast & Hall).
    exists (fp :: pos). split; [simpl; lia|]. split; [done|].
    split; [done|]. intros [|k] Hk.
    + exists fp, fp1, p, p1. rewrite Nat.add_0_r. done.
    + destruct (Hall k) as (fa & fb & q & q' & Ha & Hb & Hq & Hs); [lia|].
      exists fa, fb, q, q'. repeat split; try done.
      by replace (i + S k)%nat with (S i + k)%nat by lia.
Qed.
End Order.

(** C4, as amended.  A sentence is read in the order count of parses,
    gold tree line, parses: the count is scanned from the start of the
    sentence, the gold tree is made of the line that follows the count,
    and the parses are read one after the other from what follows that
    line. *)
Theorem sentence_read_order `{LibC} `{TreeLib} `{Memory} fp dc
    (s : sentence_type tree) fp' s' :
  sentence_type_read fp dc false s = Ret (true, fp', s') →
  ∃ n fp1 buffer fp2 g (pos : list FILE),
    fscanf_u fp = (Some n, fp1)
    ∧ fgets BUFFER_SIZE fp1 = (Some buffer, fp2)
    ∧ readtree buffer dc = Some g ∧ gold s' = Some g
    ∧ nparses s' = N.to_nat n
    ∧ length pos = S (N.to_nat n)
    ∧ pos !! 0%nat = Some fp2 ∧ pos !! N.to_nat n = Some fp'
    ∧ ∀ k p, parses s' !! k = Some p →
        ∃ fa fb q q',
          pos !! k = Some fa ∧ pos !! S k = Some fb
          ∧ parse_type_read fa dc false q = (true, fb, q')
          ∧ logprob p = logprob q' ∧ parse p = parse q'.
Proof.
  intros Hr.
  pose proof (sentence_read_true_inv _ _ _ _ _ _ Hr)
    as (_ & n & fp1 & buffer & fp2 & g & Hn & Hb & Hg & Hloop).
  pose proof (read_parses_frame _ _ _ _ _ _ _ _ _ _ Hloop) as (Hlen & Hgold & _).
  simpl in Hlen, Hgold. rewrite length_resize in Hlen.
  apply read_parses_positions in Hloop as (pos & Hpl & Hhd & Hlast & Hall).
  exists n, fp1, buffer, fp2, g, pos. repeat split; try done.
  intros k p Hk. destruct (Hall k) as (fa & fb & q & q' & Ha & Hb' & Hq & Hs).
  { apply lookup_lt_Some in Hk. lia. }
  simpl in Hs. rewrite Hk in Hs. inversion Hs; subst p.
  by exists fa, fb, q, q'.
Qed.

Lemma sentence_read_order_witness :
  ∃ n fp1 buffer fp2 g,
    fscanf_u Examples.one_sentence = (Some n, fp1)
    ∧ fgets BUFFER_SIZE fp1 = (Some buffer, fp2)
    ∧ readtree buffer false = Some g
    ∧ gold (returned (sentence_type_read Examples.one_sentence false false
                        sentence_type_default) sentence_type_default)
      = Some g.
Proof.
  destruct (sentence_read_order Examples.one_sentence false
              sentence_type_default []
              (returned (sentence_type_read Examples.one_sentence false false
                           sentence_type_default) sentence_type_default))
    as (n & fp1 & buffer & fp2 & g & pos & Hn & Hb & Hg & Hgold & _).
  { vm_compute. reflexivity. }
  exists n, fp1, buffer, fp2, g. tauto.
Defined.

(** C4, as stated, fails: on a sentence laid out gold tree line first,
    count of parses second, reading in that order succeeds while
    [sentence_type::read] fails, the first token not being a count. *)
Lemma sentence_read_not_gold_first :
  (∃ s', spec_sentence_read_gold_first Examples.gold_first false
           sentence_type_default
         = Ret (true, [], s'))
  ∧ (∃ fp' s', sentence_type_read Examples.gold_first false false
                 sentence_type_default
               = Ret (false, fp', s')).
Proof.
  split; [eexists|eexists _, _]; vm_compute; reflexivity.
Qed.

(** ** Lines longer than the buffer *)

Lemma fgets_bytes_long room : ∀ (line rest : list byte),
  (room ≤ length line)%nat →
  Forall (λ c, is_newline c = false) line →
  fgets_bytes room (line ++ rest) = (take room line, drop room line ++ rest).
Proof.
  induction room as [|room IH]; intros line rest Hlen Hnl.
  - rewrite take_0, drop_0. by destruct (line ++ rest).
  - destruct line as [|c line]; [simpl in Hlen; lia|].
    apply Forall_cons in Hnl as [Hc Hnl]. simpl. rewrite Hc.
    rewrite IH; [done|simpl in Hlen; lia|done].
Qed.

Lemma fgets_long size (line rest : list byte) :
  (size ≤ length line)%nat → (0 < size)%nat →
  Forall (λ c, is_newline c = false) line →
  fgets size (line ++ rest)
  = (Some (take (size - 1) line), drop (size - 1) line ++ rest).
Proof.
  intros Hlen Hpos Hnl. unfold fgets.
  destruct (line ++ rest) as [|c fp] eqn:E.
  { destruct line; [simpl in Hlen; lia|discriminate]. }
  rewrite <- E. rewrite fgets_bytes_long; [done|lia|done].
Qed.

(** C5, as amended.  A tree line of 4000 bytes or more is not
    detected.  [fgets] stores its first 3999 bytes and leaves the others
    in the stream.  [parse_type::read] returns true, with the tree
    [readtree] makes of these 3999 bytes.  [sentence_type::read] hands
    these 3999 bytes to [readtree] for the gold tree: when [readtree]
    makes no tree of them the assertion ends the run; otherwise the read
    goes on, with the parses resized and read from the rest of the
    line, and it returns true when no parse is declared. *)
Theorem long_tree_line_truncated `{LibC} `{TreeLib} `{Memory}
    (line rest : list byte) dc :
  (BUFFER_SIZE ≤ length line)%nat →
  Forall (λ c, is_newline c = false) line →
  let stream := line ++ newline :: rest in
  let kept := take (BUFFER_SIZE - 1) line in
  let left := drop (BUFFER_SIZE - 1) line ++ newline :: rest in
  fgets BUFFER_SIZE stream = (Some kept, left)
  ∧ (∀ fp x p,
       fscanf_lf fp = (Some x, stream) →
       parse_type_read fp dc false p
       = (true, left,
          set_parse (readtree kept dc) (set_logprob x (set_parse None p))))
  ∧ (∀ fp n s,
       fscanf_u fp = (Some n, stream) →
       sentence_type_read fp dc false s
       = match readtree kept dc with
         | None => Crash AssertFailed
         | Some g =>
             if can_resize parses_fit n
             then read_parses (N.to_nat n) 0 left dc false (tree_edges g)
                    (sentence_before_parses n g s)
             else Crash BadAlloc
         end)
  ∧ (∀ fp s g,
       fscanf_u fp = (Some 0, stream) →
       readtree kept dc = Some g →
       sentence_type_read fp dc false s
       = Ret (true, left, sentence_before_parses 0 g s)).
Proof.
  intros Hlen Hnl stream kept left.
  assert (fgets BUFFER_SIZE stream = (Some kept, left)) as Hfgets.
  { apply fgets_long; [done|unfold BUFFER_SIZE; lia|done]. }
  assert (∀ fp n s,
            fscanf_u fp = (Some n, stream) →
            sentence_type_read fp dc false s
            = match readtree kept dc with
              | None => Crash AssertFailed
              | Some g =>
                  if can_resize parses_fit n
                  then read_parses (N.to_nat n) 0 left dc false (tree_edges g)
                         (sentence_before_parses n g s)
                  else Crash BadAlloc
              end) as Hgold.
  { intros fp n s Hn. unfold sentence_type_read.
    rewrite Hn, Hfgets. cbn [gold set_gold]. by destruct (readtree kept dc). }
  split; [done|]. split; [|split; [done|]].
  - intros fp x p Hx. unfold parse_type_read. by rewrite Hx, Hfgets.
  - intros fp s g Hn Hg. by rewrite (Hgold _ _ _ Hn), Hg.
Qed.

Lemma long_tree_line_truncated_witness :
  fgets BUFFER_SIZE (Examples.long_tree ++ [newline])
  = (Some (take (BUFFER_SIZE - 1) Examples.long_tree),
     drop (BUFFER_SIZE - 1) Examples.long_tree ++ [newline])
  ∧ sentence_type_read Examples.long_gold false false sentence_type_default
    = Ret (true, drop (BUFFER_SIZE - 1) Examples.long_tree ++ [newline],
           sentence_before_parses 0 (take (BUFFER_SIZE - 1) Examples.long_tree)
             sentence_type_default).
Proof.
  assert (BUFFER_SIZE ≤ length Examples.long_tree)%nat as Hlen.
  { apply Nat.leb_le. vm_compute. reflexivity. }
  assert (Forall (λ c, is_newline c = false) Examples.long_tree) as Hnl.
  { apply (bool_decide_unpack _). vm_compute. reflexivity. }
  pose proof (long_tree_line_truncated Examples.long_tree [] false Hlen Hnl)
    as (Hfgets & _ & _ & Hgold).
  split; [exact Hfgets|]. apply Hgold; vm_compute; reflexivity.
Defined.

(** C5, as stated, fails: the line of a parse with a tree of 4102
    bytes is read with success, the tree is made of the first 3999
    bytes and the other bytes of the line are left in the stream. *)
Lemma long_parse_line_accepted :
  ∃ p,
    parse_type_read Examples.long_parse false false parse_type_default
    = (true, drop 3999 Examples.long_tree ++ [newline], p)
    ∧ parse p = readtree (take 3999 Examples.long_tree) false
    ∧ length Examples.long_tree = 4102%nat.
Proof.
  eexists. split; [vm_compute; reflexivity|].
  split; vm_compute; reflexivity.
Qed.

(** ** [map_sentences] against [read] *)

Section ReadIndependence.
Context `{LibC} `{TreeLib} `{Memory}.

(** What [parse_type::read] returns and where it leaves the stream do
    not depend on the object read into; after a read that returned true
    and the scoring, neither does the object. *)
Lemma parse_read_indep fp dc ig (p q : parse_type tree) ok fp1 p1 :
  parse_type_read fp dc ig p = (ok, fp1, p1) →
  ∃ q1, parse_type_read fp dc ig q = (ok, fp1, q1)
        ∧ (ok = true → parse q1 = parse p1
                       ∧ ∀ pr, set_score pr q1 = set_score pr p1).
Proof.
  unfold parse_type_read. destruct (fscanf_lf fp) as [[x|] fp0].
  - destruct ig.
    + intros [= <- <- <-]. eexists. split; [done|]. by intros _.
    + destruct (fgets BUFFER_SIZE fp0) as [[buffer|] fp2];
        intros [= <- <- <-]; eexists; (split; [done|]); by intros.
  - intros [= <- <- <-]. eexists. split; [done|]. by intros.
Qed.

Lemma read_parses_indep todo : ∀ i fp dc ig ge (s t : sentence_type tree),
  length (parses s) = (i + todo)%nat →
  length (parses t) = (i + todo)%nat →
  take i (parses s) = take i (parses t) →
  match read_parses todo i fp dc ig ge s with
  | Ret (ok, fp', s') =>
      ∃ t', read_parses todo i fp dc ig ge t = Ret (ok, fp', t')
            ∧ (ok = true → parses s' = parses t')
  | Crash e => read_parses todo i fp dc ig ge t = Crash e
  end.
Proof.
  induction todo as [|todo IH]; intros i fp dc ig ge s t Hs Ht Htake; simpl.
  - exists t. split; [done|]. intros _.
    rewrite <- (take_ge (parses s) i), <- (take_ge (parses t) i) by lia. done.
  - destruct (lookup_lt_is_Some_2 (parses s) i) as [p Hp]; [lia|].
    destruct (lookup_lt_is_Some_2 (parses t) i) as [q Hq]; [lia|].
    rewrite Hp, Hq.
    destruct (parse_type_read fp dc ig p) as [[ok fp1] p1] eqn:Hread.
    destruct (parse_read_indep _ _ _ _ q _ _ _ Hread) as (q1 & -> & Hq1).
    destruct ok.
    + destruct (Hq1 eq_refl) as [Hparse Hscore]. rewrite Hparse, Hscore.
      set (x := set_score (precrec ge (parse p1)) p1).
      apply IH.
      * case (float_gt _ _); simpl; rewrite length_insert; lia.
      * case (float_gt _ _); simpl; rewrite length_insert; lia.
      * assert (take (S i) (<[i:=x]> (parses s))
                = take (S i) (<[i:=x]> (parses t))) as Hst.
        { rewrite !(take_S_r _ i x) by (apply list_lookup_insert_eq; lia).
          rewrite !take_insert_ge by lia. by rewrite Htake. }
        do 2 case (float_gt _ _); simpl; exact Hst.
    + eexists. split; [done|]. discriminate.
Qed.

(** What [sentence_type::read] returns and where it leaves the stream
    do not depend on the object read into; after a read that returned
    true, neither does what the object holds of the stream. *)
Lemma sentence_read_indep fp dc ig (s t : sentence_type tree) :
  match sentence_type_read fp dc ig s with
  | Ret (ok, fp', s') =>
      ∃ t', sentence_type_read fp dc ig t = Ret (ok, fp', t')
            ∧ (ok = true → sentence_data s' = sentence_data t')
  | Crash e => sentence_type_read fp dc ig t = Crash e
  end.
Proof.
  unfold sentence_type_read. destruct (fscanf_u fp) as [[n|] fp1].
  2: { eexists. split; [done|]. discriminate. }
  destruct ig; [done|].
  destruct (fgets BUFFER_SIZE fp1) as [[buffer|] fp2].
  2: { eexists. split; [done|]. discriminate. }
  cbn [gold set_gold]. destruct (readtree buffer dc) as [g|]; [|done].
  destruct (can_resize parses_fit n); [|done].
  change (set_parses _ (set_gold_nedges _ (set_gold (Some g) (set_gold None s))))
    with (sentence_before_parses n g s).
  change (set_parses _ (set_gold_nedges _ (set_gold (Some g) (set_gold None t))))
    with (sentence_before_parses n g t).
  pose proof (read_parses_indep (N.to_nat n) 0 fp2 dc false (tree_edges g)
                (sentence_before_parses n g s) (sentence_before_parses n g t))
    as Hind.
  destruct (read_parses _ _ _ _ _ _ (sentence_before_parses n g s))
    as [[[ok fp'] s']|e] eqn:Hs.
  - destruct Hind as (t' & Ht & Hpar); [simpl; apply length_resize..|done|].
    exists t'. split; [done|]. intros Hok.
    apply read_parses_frame in Hs as (_ & Hg & Hn).
    apply read_parses_frame in Ht as (_ & Hg' & Hn').
    unfold sentence_data. rewrite Hg, Hn, Hg', Hn', (Hpar Hok). done.
  - apply Hind; [simpl; apply length_resize..|done].
Qed.

(** Later iterations of the loop of [corpus_type::read] leave the
    sentences below [i] alone. *)
Lemma read_sentences_below todo : ∀ i fp dc ig c status fp' c',
  read_sentences todo i fp dc ig c = Ret (status, fp', c') →
  ∀ k, (k < i)%nat → sentences c' !! k = sentences c !! k.
Proof.
  induction todo as [|todo IH]; intros i fp dc ig c status fp' c' Hr k Hk;
    simpl in Hr.
  - by inversion Hr.
  - destruct (sentences c !! i) as [s|]; [|discriminate].
    apply obind_ret in Hr as ([[ok fp1] s1] & _ & Hr). destruct ok.
    + rewrite (IH _ _ _ _ _ _ _ _ Hr k) by lia. simpl.
      apply list_lookup_insert_ne. lia.
    + inversion Hr; subst; simpl. apply list_lookup_insert_ne. lia.
Qed.

(** The two loops side by side: from sentence [i] on, the visitor is
    handed a record for each read of [corpus_type::read] that returns
    true, with what the sentence of the corpus holds, and the two loops
    stop at the same read. *)
Lemma visit_sentences_read_sentences todo :
  ∀ i fp dc ig (c : corpus_type tree) sentence acc,
  length (sentences c) = (i + todo)%nat →
  match read_sentences todo i fp dc ig c with
  | Ret (ok, fp', c') =>
      ∃ new fpk,
        visit_sentences accumulate todo fp dc ig sentence acc
        = Ret (ok, fp', acc ++ new)
        ∧ sentence_data <$> new
          = sentence_data <$> take (length new) (drop i (sentences c'))
        ∧ sentence_reads dc ig fp (take (length new) (drop i (sentences c)))
            fpk (take (length new) (drop i (sentences c')))
        ∧ if ok then length new = todo
          else (length new < todo)%nat
               ∧ ∃ s s1, sentences c !! (i + length new)%nat = Some s
                   ∧ sentence_type_read fpk dc ig s = Ret (false, fp', s1)
                   ∧ sentences c' !! (i + length new)%nat = Some s1
  | Crash e => visit_sentences accumulate todo fp dc ig sentence acc = Crash e
  end.
Proof.
  induction todo as [|todo IH]; intros i fp dc ig c sentence acc Hlen; simpl.
  - exists [], fp. rewrite app_nil_r. repeat split; constructor.
  - destruct (lookup_lt_is_Some_2 (sentences c) i) as [s Hs]; [lia|].
    rewrite Hs. pose proof (sentence_read_indep fp dc ig s sentence) as Hind.
    destruct (sentence_type_read fp dc ig s) as [[[ok fp1] s1]|e] eqn:Hread;
      simpl.
    2: { by rewrite Hind. }
    destruct Hind as (t1 & -> & Hdata). simpl. destruct ok.
    + set (c1 := {| sentences := <[i:=s1]> (sentences c) |}).
      specialize (IH (S i) fp1 dc ig c1 t1 (acc ++ [t1])).
      destruct (read_sentences todo (S i) fp1 dc ig c1)
        as [[[ok fp'] c']|e] eqn:Hloop.
      2: { apply IH. simpl. rewrite length_insert. lia. }
      destruct IH as (new & fpk & Hv & Hnew & Hreads & Hend).
      { simpl. rewrite length_insert. lia. }
      exists (t1 :: new), fpk. rewrite <- app_assoc in Hv.
      split; [exact Hv|].
      assert (sentences c' !! i = Some s1) as Hi.
      { rewrite (read_sentences_below _ _ _ _ _ _ _ _ _ Hloop i) by lia.
        simpl. apply list_lookup_insert_eq. by apply lookup_lt_Some in Hs. }
      rewrite (drop_S _ _ _ Hi), (drop_S _ _ _ Hs). cbn [length take].
      simpl in Hreads. rewrite drop_insert_lt in Hreads by lia.
      split; [|split].
      * rewrite !fmap_cons. f_equal; [symmetry; exact (Hdata eq_refl)|exact Hnew].
      * by econstructor.
      * destruct ok; [by rewrite Hend|].
        destruct Hend as (Hlt & s' & s1' & Hs' & Hfail & Hs1').
        split; [lia|]. exists s', s1'. simpl in Hs'.
        rewrite list_lookup_insert_ne in Hs' by lia.
        by rewrite Nat.add_succ_r.
    + exists [], fp. rewrite app_nil_r. split; [done|]. split; [done|].
      split; [constructor|]. split; [simpl; lia|]. exists s, s1.
      rewrite Nat.add_0_r. split; [done|]. split; [done|]. simpl.
      apply list_lookup_insert_eq. by apply lookup_lt_Some in Hs.
Qed.
End ReadIndependence.

(** C3, as amended.  On every stream whose declared count [M] of
    sentences fits a vector, [map_sentences] with an accumulating
    visitor stops where [corpus_type::read] into an empty corpus stops.
    The corpus has [M] sentences, and the records handed to the visitor
    hold the gold trees, gold edge counts and parses of its leading
    sentences.  When [read] returns true the visitor was handed a
    record for each of the [M] sentences and [map_sentences] returns
    [M].  When [read] returns false [map_sentences] returns 0 and the
    visitor was handed a record for each sentence read before the
    failure, no more and no fewer: these sentences are the result of
    reads that returned true, one after the other from the byte after
    the count on, and the next read, into the next sentence of the
    corpus, is the one that returned false.  Without a count at the
    head of the stream the visitor is handed nothing and the corpus
    stays empty. *)
Theorem map_sentences_accumulates_read `{LibC} `{TreeLib} `{Memory} fp dc ig :
  match fscanf_u fp with
  | (None, fp1) =>
      corpus_type_read fp dc ig corpus_type_default
      = Ret (false, fp1, corpus_type_default)
      ∧ corpus_type_map_sentences accumulate fp dc ig [] = Ret (0, fp1, [])
  | (Some M, fp1) =>
      if can_resize sentences_fit M then
        match corpus_type_read fp dc ig corpus_type_default with
        | Ret (status, fp', c) =>
            ∃ n acc,
              corpus_type_map_sentences accumulate fp dc ig []
              = Ret (n, fp', acc)
              ∧ nsentences c = N.to_nat M
              ∧ sentence_data <$> acc
                = take (length acc) (sentence_data <$> sentences c)
              ∧ if status
                then length acc = N.to_nat M ∧ n = M
                else n = 0
                     ∧ (length acc < N.to_nat M)%nat
                     ∧ ∃ fpk s1,
                         sentence_reads dc ig fp1
                           (replicate (length acc) sentence_type_default)
                           fpk (take (length acc) (sentences c))
                         ∧ sentence_type_read fpk dc ig sentence_type_default
                           = Ret (false, fp', s1)
                         ∧ sentences c !! length acc = Some s1
        | Crash e =>
            corpus_type_map_sentences accumulate fp dc ig [] = Crash e
        end
      else corpus_type_read fp dc ig corpus_type_default = Crash BadAlloc
  end.
Proof.
  unfold corpus_type_read, corpus_type_map_sentences.
  destruct (fscanf_u fp) as [[n|] fp1]; [|done].
  destruct (can_resize sentences_fit n); [|done].
  set (c0 := {| sentences := resize (N.to_nat n) sentence_type_default
                               (sentences corpus_type_default) |}).
  assert (sentences c0 = replicate (N.to_nat n) sentence_type_default) as Hc0.
  { simpl. by rewrite resize_nil. }
  pose proof (visit_sentences_read_sentences (N.to_nat n) 0 fp1 dc ig c0
                sentence_type_default []) as Hloops.
  destruct (read_sentences (N.to_nat n) 0 fp1 dc ig c0)
    as [[[status fp'] c]|e] eqn:Hread.
  - destruct Hloops as (new & fpk & -> & Hnew & Hreads & Hend);
      [simpl; apply length_resize|].
    apply read_sentences_length in Hread. unfold nsentences in *.
    simpl in Hread. rewrite length_resize in Hread.
    rewrite !drop_0 in Hnew, Hreads. rewrite Hc0 in Hreads.
    exists (if status then n else 0), new. split; [done|]. split; [done|].
    split; [by rewrite <- fmap_take|]. destruct status; [done|].
    destruct Hend as (Hlt & s & s1 & Hs & Hfail & Hs1).
    rewrite Hc0 in Hs. rewrite Nat.add_0_l in Hs, Hs1.
    apply lookup_replicate in Hs as [-> _].
    rewrite take_replicate, Nat.min_l in Hreads by lia.
    split; [done|]. split; [done|]. by exists fpk, s1.
  - rewrite Hloops; [done|]. simpl. apply length_resize.
Qed.

(** C3, as stated, fails: on the stream that declares 3 sentences and
    holds 2, the visitor accumulates 2 records and the corpus has 3.
    And on a stream that declares 4294967295 sentences and holds none,
    [read] ends the run on the vector it cannot resize, where
    [map_sentences], which has no vector, returns 0. *)
Lemma map_sentences_short_stream :
  (∃ n fp1 acc fp2 c,
     corpus_type_map_sentences accumulate Examples.short_stream false false []
     = Ret (n, fp1, acc)
     ∧ corpus_type_read Examples.short_stream false false corpus_type_default
       = Ret (false, fp2, c)
     ∧ length acc = 2%nat ∧ nsentences c = 3%nat ∧ acc ≠ sentences c)
  ∧ corpus_type_read Examples.huge_corpus false false corpus_type_default
    = Crash BadAlloc
  ∧ corpus_type_map_sentences accumulate Examples.huge_corpus false false []
    = Ret (0, [], []).
Proof.
  split.
  - eexists _, _, _, _, _.
    split; [vm_compute; reflexivity|]. split; [vm_compute; reflexivity|].
    split; [reflexivity|]. split; [reflexivity|]. discriminate.
  - split; [vm_compute; reflexivity|].
    unfold corpus_type_map_sentences.
    replace (fscanf_u Examples.huge_corpus) with (Some 4294967295, @nil byte)
      by (vm_compute; reflexivity).
    assert (∃ k, N.to_nat 4294967295 = S k) as [k ->].
    { exists (N.to_nat 4294967294). apply (N2Nat.inj_succ 4294967294). }
    reflexivity.
Qed.

(** On a stream that both read to its end, the records differ in
    [max_fscore] alone: the one object [map_sentences] reads into keeps
    the maximum of the sentences before. *)
Lemma map_sentences_max_fscore_differs :
  let fp := (c_str "2 " ++ Examples.two_records)%list in
  ∃ fp1 acc fp2 c,
    corpus_type_map_sentences accumulate fp false false [] = Ret (2, fp1, acc)
    ∧ corpus_type_read fp false false corpus_type_default = Ret (true, fp2, c)
    ∧ max_fscore <$> acc = [1%Q; 1%Q]
    ∧ max_fscore <$> sentences c = [1%Q; 0%Q].
Proof.
  eexists _, _, _, _.
  split; [vm_compute; reflexivity|]. split; [vm_compute; reflexivity|].
  split; reflexivity.
Qed.

(** ** The choice of the decompressor *)
Section DecompressFacts.
Context `{Process}.

Lemma strrchr_None (s : list byte) (c : byte) :
  c ∉ s → strrchr s c = None.
Proof.
  induction s as [|b s IH]; [done|]. intros Hc. simpl.
  rewrite IH by set_solver.
  destruct (Byte.eqb b c) eqn:E; [|done].
  apply Byte.byte_dec_bl in E. set_solver.
Qed.

(** The suffix is what starts at the last dot of the name. *)
Lemma strrchr_last (base ext : list byte) (c : byte) :
  c ∉ ext → strrchr (base ++ c :: ext) c = Some (c :: ext).
Proof.
  intros Hc. induction base as [|b base IH]; simpl.
  - rewrite strrchr_None by done.
    by rewrite (Byte.byte_dec_lb (x := c) eq_refl).
  - by rewrite IH.
Qed.

(** Two strings that are equal once lowered compare equal. *)
Lemma strcasecmp_lower (a b : list byte) :
  tolower <$> a = tolower <$> b → strcasecmp a b = 0%Z.
Proof.
  revert b. induction a as [|x a IH]; intros [|y b]; try done.
  rewrite !fmap_cons. intros [= Hxy Hab]. simpl.
  rewrite Hxy, Z.eqb_refl. by apply IH.
Qed.

(** A name without a dot: [strrchr] returns [NULL], which [strcasecmp]
    reads through. *)
Lemma popen_decompress_no_dot (filename : list byte) :
  "."%byte ∉ filename →
  corpus_type_popen_decompress filename = Crash NullDereference.
Proof.
  intros Hdot. unfold corpus_type_popen_decompress.
  by rewrite strrchr_None.
Qed.

(** A name with a dot: the command is chosen by the comparison of what
    follows the last dot, and a command that cannot be started ends the
    run. *)
Lemma popen_decompress_suffix (base ext : list byte) :
  "."%byte ∉ ext →
  let filename := base ++ "."%byte :: ext in
  let command :=
    (if (strcasecmp ("."%byte :: ext) (c_str ".bz2") =? 0)%Z
     then c_str "bzcat "
     else if (strcasecmp ("."%byte :: ext) (c_str ".gz") =? 0)%Z
          then c_str "gunzip -c " else c_str "cat ") ++ filename in
  corpus_type_popen_decompress filename
  = match popen command with
    | Some fp => Ret fp
    | None => Crash ExitFailure
    end.
Proof.
  intros Hdot filename command. unfold corpus_type_popen_decompress.
  subst filename. by rewrite strrchr_last.
Qed.

(** The names of the specification. *)
Lemma popen_decompress_examples :
  let launch command :=
    match popen (c_str command) with
    | Some fp => Ret fp
    | None => Crash ExitFailure
    end in
  corpus_type_popen_decompress (c_str "x.bz2") = launch "bzcat x.bz2"%string
  ∧ corpus_type_popen_decompress (c_str "x.BZ2") = launch "bzcat x.BZ2"%string
  ∧ corpus_type_popen_decompress (c_str "x.gz") = launch "gunzip -c x.gz"%string
  ∧ corpus_type_popen_decompress (c_str "x.Gz") = launch "gunzip -c x.Gz"%string
  ∧ corpus_type_popen_decompress (c_str "x.txt") = launch "cat x.txt"%string
  ∧ corpus_type_popen_decompress (c_str "x.bz2.txt")
    = launch "cat x.bz2.txt"%string.
Proof. repeat split. Qed.
End DecompressFacts.

(** C9: the code does not do what the claim says for a name without a
    dot.  [strrchr] returns [NULL] and [strcasecmp] reads through it,
    where the claim has such a name passed to [cat]. *)
Theorem popen_decompress_plain_name `{Process} :
  corpus_type_popen_decompress (c_str "corpus") = Crash NullDereference.
Proof.
  apply popen_decompress_no_dot. unfold c_str; simpl.
  repeat (apply not_elem_of_cons; split; [discriminate|]).
  apply not_elem_of_nil.
Qed.

(** ** Copies and assignments *)
Section OwnershipFacts.
Context {tree : Type}.
Implicit Types (h : heap tree) (l : loc) (t : tree).

Lemma M_bind_unfold {A B} (m : M tree A) (k : A → M tree B) h :
  (m ≫= k) h = match m h with
               | Ret (a, h') => k a h'
               | Crash c => Crash c
               end.
Proof. reflexivity. Qed.

(** [new] gives a location that was not live. *)
Lemma new_tree_fresh t h :
  ∃ l, new_tree t h = Ret (l, <[l:=t]> h) ∧ h !! l = None.
Proof.
  exists (fresh (dom h)). split; [done|].
  apply not_elem_of_dom, is_fresh.
Qed.

(** [copy_tree] on a live tree gives a new tree with the same contents
    and leaves the others as they are. *)
Lemma copy_tree_live l t h :
  h !! l = Some t →
  ∃ l', copy_tree (Some l) h = Ret (l', <[l':=t]> h) ∧ h !! l' = None.
Proof. intros Hl. unfold copy_tree. rewrite Hl. apply new_tree_fresh. Qed.

(** The copy constructor of [parse_type] guards the null tree. *)
Lemma parse_type_copy_null (dp : parse_type loc) h :
  parse dp = None → parse_type_copy dp h = Ret (dp, h).
Proof. destruct dp as [a b c d []]; [done|]. by intros _. Qed.

(** Copy construction of a parse that owns a tree: the copy owns a new
    tree with the same contents, the tree of the source and every other
    tree are as they were, and the copy's tree outlives the source's. *)
Lemma parse_type_copy_deep (dp : parse_type loc) l t h :
  parse dp = Some l → h !! l = Some t →
  ∃ l', parse_type_copy dp h = Ret (set_parse (Some l') dp, <[l':=t]> h)
        ∧ h !! l' = None ∧ l' ≠ l
        ∧ delete l (<[l':=t]> h) !! l' = Some t.
Proof.
  intros Hp Hl. unfold parse_type_copy. rewrite Hp.
  destruct (copy_tree_live l t h Hl) as (l' & Hc & Hfresh).
  exists l'. rewrite M_bind_unfold, Hc.
  assert (l' ≠ l) as Hne by congruence.
  split; [done|]. split; [done|]. split; [done|].
  rewrite lookup_delete_ne by done. apply lookup_insert_eq.
Qed.

(** Assignment from a parse that owns a tree, onto a distinct object
    that owns another tree or none: the old tree of the destination is
    deleted and the destination owns a new tree with the contents of
    the source's. *)
Lemma parse_type_assign_deep this_addr dp_addr (this dp : parse_type loc) l t h :
  this_addr ≠ dp_addr →
  parse dp = Some l → h !! l = Some t →
  (∀ l0, parse this = Some l0 → is_Some (h !! l0) ∧ l0 ≠ l) →
  let h0 := match parse this with Some l0 => delete l0 h | None => h end in
  ∃ l', parse_type_assign this_addr dp_addr this dp h
        = Ret (set_parse (Some l') dp, <[l':=t]> h0)
        ∧ h0 !! l' = None ∧ l' ≠ l
        ∧ <[l':=t]> h0 !! l = Some t.
Proof.
  intros Hne Hp Hl Hthis h0. unfold parse_type_assign.
  rewrite decide_False by done. unfold parse_type_assign_from.
  rewrite M_bind_unfold. cbn [parse].
  assert (delete_if_set (parse this) h = Ret (tt, h0)
          ∧ h0 !! l = Some t) as [-> Hl0].
  { subst h0. destruct (parse this) as [l0|]; [|done].
    destruct (Hthis l0 eq_refl) as [[t0 Ht0] Hne0]. simpl.
    unfold delete_tree. rewrite Ht0. split; [done|].
    by rewrite lookup_delete_ne. }
  rewrite M_bind_unfold, Hp.
  destruct (copy_tree_live l t h0 Hl0) as (l' & -> & Hfresh).
  exists l'. assert (l' ≠ l) as Hne' by congruence.
  split; [done|]. split; [done|]. split; [done|].
  by rewrite lookup_insert_ne.
Qed.

(** Assignment from a parse without a tree, onto a distinct object:
    [dp.parse->copy_tree()] is called on [NULL]. *)
Lemma parse_type_assign_null_source this_addr dp_addr
    (this dp : parse_type loc) h :
  this_addr ≠ dp_addr →
  parse dp = None →
  (∀ l0, parse this = Some l0 → is_Some (h !! l0)) →
  parse_type_assign this_addr dp_addr this dp h = Crash NullDereference.
Proof.
  intros Hne Hp Hthis. unfold parse_type_assign.
  rewrite decide_False by done. unfold parse_type_assign_from.
  rewrite M_bind_unfold. cbn [parse].
  destruct (parse this) as [l0|]; simpl.
  - destruct (Hthis l0 eq_refl) as [t0 Ht0]. unfold delete_tree.
    rewrite Ht0. rewrite M_bind_unfold, Hp. done.
  - rewrite M_bind_unfold, Hp. done.
Qed.

Lemma parses_live_mono h h' (src : list (parse_type loc)) :
  h ⊆ h' → parses_live h src → parses_live h' src.
Proof.
  intros Hsub Hlive. eapply Forall_impl; [exact Hlive|].
  intros p Hp l [t Ht]%Hp. exists t. by eapply lookup_weaken.
Qed.

Lemma parse_contents_mono h h' (p : parse_type loc) :
  h ⊆ h' → (∀ l, parse p = Some l → is_Some (h !! l)) →
  parse_contents h' p = parse_contents h p.
Proof.
  intros Hsub Hp. unfold parse_contents, owned. f_equal.
  destruct (parse p) as [l|]; [|done]. simpl.
  destruct (Hp l eq_refl) as [t Ht]. rewrite Ht.
  by eapply lookup_weaken.
Qed.

(** Copy construction of a parse, with or without a tree: the heap
    grows by at most the tree of the copy, which was not live, and the
    copy has the contents of the source. *)
Lemma parse_type_copy_spec (dp : parse_type loc) h :
  (∀ l, parse dp = Some l → is_Some (h !! l)) →
  ∃ p h', parse_type_copy dp h = Ret (p, h') ∧ h ⊆ h'
          ∧ parse_contents h' p = parse_contents h dp
          ∧ (∀ l, parse p = Some l → h !! l = None ∧ is_Some (h' !! l)).
Proof.
  intros Hlive. destruct (parse dp) as [l|] eqn:Hp.
  - destruct (Hlive l eq_refl) as [t Ht].
    destruct (parse_type_copy_deep dp l t h Hp Ht) as (l' & -> & Hfresh & _).
    eexists _, _. split; [done|]. split; [by apply insert_subseteq|].
    split.
    + unfold parse_contents, owned; simpl.
      by rewrite lookup_insert_eq, Hp; simpl; rewrite Ht.
    + simpl. intros ? [= <-]. by rewrite lookup_insert_eq.
  - rewrite parse_type_copy_null by done. exists dp, h.
    split; [done|]. split; [done|]. split; [done|]. congruence.
Qed.

(** Copy construction of a vector of parses: every element is copied
    into trees that were not live. *)
Lemma vector_copy_spec (src : list (parse_type loc)) : ∀ h,
  parses_live h src →
  ∃ ps h', vector_copy src h = Ret (ps, h') ∧ h ⊆ h'
           ∧ parse_contents h' <$> ps = parse_contents h <$> src
           ∧ Forall (λ p, ∀ k, parse p = Some k →
                       h !! k = None ∧ is_Some (h' !! k)) ps.
Proof.
  induction src as [|dp src IH]; intros h Hlive.
  - exists [], h. by repeat split.
  - apply Forall_cons in Hlive as [Hdp Hsrc].
    destruct (parse_type_copy_spec dp h Hdp) as (p & h1 & Hc & Hsub & Hcont & Hnew).
    destruct (IH h1 (parses_live_mono _ _ _ Hsub Hsrc))
      as (l & h' & Hv & Hsub' & Hconts & Hnews).
    exists (p :: l), h'. cbn [vector_copy].
    rewrite M_bind_unfold, Hc, M_bind_unfold, Hv.
    split; [done|]. split; [by etrans|]. split; [|apply Forall_cons; split].
    + rewrite !fmap_cons. f_equal.
      * rewrite <- Hcont. apply parse_contents_mono; [done|].
        intros k Hk. by apply Hnew.
      * rewrite Hconts. apply Forall_fmap_ext_1.
        eapply Forall_impl; [exact Hsrc|]. intros q Hq.
        by apply parse_contents_mono.
    + intros k [Hk [t Ht]]%Hnew. split; [done|]. exists t.
      by eapply lookup_weaken.
    + eapply Forall_impl; [exact Hnews|]. intros q Hq k [Hk Hk']%Hq.
      split; [|done]. destruct (h !! k) eqn:E; [|done].
      eapply lookup_weaken in E; [|exact Hsub]. congruence.
Qed.

(** Copy construction of a sentence that owns a gold tree: the copy has
    the contents of the source and its gold tree is a new tree, at a
    location that was not live. *)
Lemma sentence_type_copy_deep (s : sentence_type loc) g t h :
  gold s = Some g → h !! g = Some t → parses_live h (parses s) →
  ∃ s' h' g', sentence_type_copy s h = Ret (s', h') ∧ h ⊆ h'
              ∧ sentence_contents h' s' = sentence_contents h s
              ∧ gold s' = Some g' ∧ g' ≠ g ∧ h !! g' = None
              ∧ h' !! g' = Some t
              ∧ Forall (λ p, ∀ k, parse p = Some k → h !! k = None) (parses s').
Proof.
  intros Hg Ht Hlive. unfold sentence_type_copy.
  destruct (vector_copy_spec (parses s) h Hlive)
    as (l & h1 & Hv & Hsub & Hconts & Hnews).
  rewrite M_bind_unfold, Hv, Hg.
  assert (h1 !! g = Some t) as Ht1 by by eapply lookup_weaken.
  destruct (copy_tree_live g t h1 Ht1) as (g' & Hc & Hfresh).
  rewrite M_bind_unfold, Hc.
  assert (h !! g' = None) as Hfresh0.
  { destruct (h !! g') eqn:E; [|done].
    eapply lookup_weaken in E; [|exact Hsub]. congruence. }
  eexists _, _, g'. split; [done|]. split.
  { etrans; [exact Hsub|]. by apply insert_subseteq. }
  split; [|split; [done|]; split; [congruence|]; split; [done|]; split].
  - unfold sentence_contents, owned; simpl.
    rewrite lookup_insert_eq, Hg; simpl. rewrite Ht. f_equal.
    rewrite <- Hconts. apply Forall_fmap_ext_1.
    eapply Forall_impl; [exact Hnews|]. intros p Hp.
    apply parse_contents_mono; [by apply insert_subseteq|].
    intros k Hk. by apply Hp.
  - simpl. apply lookup_insert_eq.
  - simpl. eapply Forall_impl; [exact Hnews|]. intros p Hp k Hk.
    by apply Hp.
Qed.

(** The destructors delete the trees of the object and no other. *)
Lemma vector_destroy_frame (l : list (parse_type loc)) : ∀ h h' k,
  vector_destroy l h = Ret (tt, h') →
  Forall (λ p, parse p ≠ Some k) l → h' !! k = h !! k.
Proof.
  induction l as [|p l IH]; intros h h' k Hd Hk; simpl in Hd.
  - by inversion Hd.
  - apply Forall_cons in Hk as [Hp Hl]. rewrite M_bind_unfold in Hd.
    unfold parse_type_destroy, delete_if_set in Hd.
    destruct (parse p) as [l0|].
    + unfold delete_tree in Hd. destruct (h !! l0); [|discriminate].
      rewrite (IH _ _ _ Hd Hl). apply lookup_delete_ne. congruence.
    + by rewrite (IH _ _ _ Hd Hl).
Qed.

Lemma sentence_type_destroy_frame (s : sentence_type loc) h h' k :
  sentence_type_destroy s h = Ret (tt, h') →
  gold s ≠ Some k → Forall (λ p, parse p ≠ Some k) (parses s) →
  h' !! k = h !! k.
Proof.
  unfold sentence_type_destroy. rewrite M_bind_unfold. intros Hd Hg Hl.
  unfold delete_if_set in Hd. destruct (gold s) as [g|].
  - unfold delete_tree in Hd. destruct (h !! g); [|discriminate].
    rewrite (vector_destroy_frame _ _ _ _ Hd Hl).
    apply lookup_delete_ne. congruence.
  - by rewrite (vector_destroy_frame _ _ _ _ Hd Hl).
Qed.

(** Copying a sentence and destroying the original leaves the gold
    tree of the copy in place. *)
Lemma sentence_copy_outlives_original (s : sentence_type loc) g t h s' h1 h2 :
  gold s = Some g → h !! g = Some t → parses_live h (parses s) →
  sentence_type_copy s h = Ret (s', h1) →
  sentence_type_destroy s h1 = Ret (tt, h2) →
  owned h2 (gold s') = Some t.
Proof.
  intros Hg Ht Hlive Hc Hd.
  destruct (sentence_type_copy_deep s g t h Hg Ht Hlive)
    as (s0 & h0 & g' & Hc0 & _ & _ & Hg' & Hne & Hfresh & Hl' & _).
  rewrite Hc in Hc0. inversion Hc0; subst s0 h0.
  unfold owned. rewrite Hg'. simpl.
  rewrite (sentence_type_destroy_frame _ _ _ g' Hd); [done|congruence|].
  eapply Forall_impl; [exact Hlive|]. intros p Hp Hk.
  destruct (Hp g' Hk) as [? ?]. congruence.
Qed.

(** Assignment of vectors onto a vector without elements constructs
    copies of all the elements of the source, whatever the capacity. *)
Lemma vector_assign_onto_empty capacity (src : list (parse_type loc)) h :
  vector_assign capacity [] src h = vector_copy src h.
Proof.
  unfold vector_assign. destruct (decide (capacity < length src)%nat).
  - rewrite M_bind_unfold. by destruct (vector_copy src h) as [[tmp h1]|].
  - destruct (decide (length src ≤ length (@nil (parse_type loc)))%nat)
      as [Hle|Hgt].
    + destruct src; [done|simpl in Hle; lia].
    + rewrite M_bind_unfold. cbn [vector_assign_range].
      change ((mret [] : M tree (list (parse_type loc))) h) with (Ret ([] : list (parse_type loc), h)).
      cbn [length take drop]. rewrite M_bind_unfold.
      rewrite drop_0. by destruct (vector_copy src h) as [[rest h1]|].
Qed.

(** Assignment of a sentence that owns a gold tree onto a distinct
    sentence without parses: the destination gets the contents of the
    source, its gold tree is a new tree and the gold tree of the source
    is left in place. *)
Lemma sentence_type_assign_onto_empty this_addr s_addr capacity
    (this s : sentence_type loc) g t h :
  this_addr ≠ s_addr →
  parses this = [] →
  gold s = Some g → h !! g = Some t → parses_live h (parses s) →
  (∀ g0, gold this = Some g0 → is_Some (h !! g0) ∧ g0 ≠ g) →
  ∃ s' h' g',
    sentence_type_assign this_addr s_addr capacity this s h = Ret (s', h')
    ∧ sentence_contents h' s' = sentence_contents h s
    ∧ gold s' = Some g' ∧ g' ≠ g
    ∧ h' !! g' = Some t ∧ h' !! g = Some t.
Proof.
  intros Hne Hnil Hg Ht Hlive Hthis. unfold sentence_type_assign.
  rewrite decide_False by done. rewrite M_bind_unfold.
  cbn [parses set_max_fscore set_gold_nedges]. rewrite Hnil.
  rewrite vector_assign_onto_empty.
  destruct (vector_copy_spec (parses s) h Hlive)
    as (ps & h1 & -> & Hsub & Hconts & Hnews).
  rewrite M_bind_unfold. cbn [gold set_parses set_max_fscore set_gold_nedges].
  set (h2 := match gold this with Some g0 => delete g0 h1 | None => h1 end).
  assert (delete_if_set (gold this) h1 = Ret (tt, h2)) as ->.
  { subst h2. destruct (gold this) as [g0|]; [|done].
    destruct (Hthis g0 eq_refl) as [[t0 Ht0] _]. simpl. unfold delete_tree.
    by rewrite (lookup_weaken _ _ _ _ Ht0 Hsub). }
  assert (h2 !! g = Some t) as Ht2.
  { subst h2. destruct (gold this) as [g0|].
    - destruct (Hthis g0 eq_refl) as [_ Hg0].
      rewrite lookup_delete_ne by done. by eapply lookup_weaken.
    - by eapply lookup_weaken. }
  assert (∀ p, p ∈ ps → ∀ k, parse p = Some k → h2 !! k = h1 !! k) as Hps.
  { intros p Hp k Hk. subst h2. destruct (gold this) as [g0|]; [|done].
    apply lookup_delete_ne. intros <-.
    destruct (Hthis g0 eq_refl) as [[t0 Ht0] _].
    rewrite Forall_forall in Hnews. destruct (Hnews p Hp g0 Hk). congruence. }
  rewrite Hg. destruct (copy_tree_live g t h2 Ht2) as (g' & Hc & Hfresh).
  rewrite M_bind_unfold, Hc.
  assert (g' ≠ g) as Hne' by congruence.
  eexists _, _, g'. split; [done|]. split; [|split; [done|]; split; [done|]; split].
  - unfold sentence_contents, owned; simpl.
    rewrite lookup_insert_eq, Hg; simpl. rewrite Ht. f_equal.
    rewrite <- Hconts. apply Forall_fmap_ext_1, Forall_forall. intros p Hp.
    unfold parse_contents, owned. f_equal.
    destruct (parse p) as [k|] eqn:Hk; [|done]. simpl.
    rewrite Forall_forall in Hnews.
    destruct (Hnews p Hp k Hk) as [_ [tk Htk]].
    rewrite lookup_insert_ne; [by apply (Hps p Hp)|].
    intros <-. rewrite (Hps p Hp g' Hk) in Hfresh. congruence.
  - apply lookup_insert_eq.
  - by rewrite lookup_insert_ne.
Qed.
End OwnershipFacts.

(** C10.  [parse_type::operator=] calls [copy_tree] through the tree
    pointer of its source without a test: when the source has no tree,
    as a default-constructed parse or one read with [ignore_trees], the
    assignment onto a distinct object dereferences [NULL], whereas the
    copy constructor tests the pointer and gives a parse with no
    tree. *)
Theorem parse_assign_needs_source_tree {T : Type} (h : heap T)
    (this_addr dp_addr : positive) (this dp : parse_type loc) :
  this_addr ≠ dp_addr →
  parse dp = None →
  (∀ l0, parse this = Some l0 → is_Some (h !! l0)) →
  parse_type_assign this_addr dp_addr this dp h = Crash NullDereference
  ∧ parse_type_copy dp h = Ret (dp, h)
  ∧ parse (parse_type_default (P := loc)) = None
  ∧ (∀ `{LibC} `{TreeLib} fp dc (p : parse_type tree) status fp' p',
       parse_type_read fp dc true p = (status, fp', p') → parse p' = None).
Proof.
  intros Hne Hp Hthis.
  split; [by apply parse_type_assign_null_source|].
  split; [by apply parse_type_copy_null|]. split; [done|].
  intros ? ? fp dc p status fp' p' Hr.
  by apply parse_read_ignore_trees in Hr as (? & _).
Qed.

Lemma parse_assign_needs_source_tree_witness :
  parse_type_assign 1%positive 2%positive (Examples.target_parse 4%positive) parse_type_default
    Examples.some_heap
  = Crash NullDereference
  ∧ parse_type_copy parse_type_default Examples.some_heap
    = Ret (parse_type_default, Examples.some_heap).
Proof.
  destruct (parse_assign_needs_source_tree Examples.some_heap 1%positive 2%positive
              (Examples.target_parse 4%positive) parse_type_default)
    as (Ha & Hc & _).
  - discriminate.
  - reflexivity.
  - intros l0 [= <-]. vm_compute. eauto.
  - by split.
Defined.

(** C8: the code does not do what the claim says for a source with a
    parse that has no tree.  The sentence that a failed read leaves,
    its second parse without a tree, is assigned to a sentence with two
    parses: the element-wise assignment of the vectors reaches
    [parse_type::operator=] on the parse without a tree, which
    dereferences [NULL].  The copy constructor copies that sentence. *)
Theorem sentence_assign_null_parse :
  sentence_contents Examples.some_heap Examples.source_sentence
  = returned (sentence_type_read Examples.missing_parse false false
                sentence_type_default) sentence_type_default
  ∧ sentence_type_assign 1%positive 2%positive 2 Examples.target_sentence
      Examples.source_sentence Examples.some_heap
    = Crash NullDereference
  ∧ ∃ s' h', sentence_type_copy Examples.source_sentence Examples.some_heap
             = Ret (s', h')
             ∧ sentence_contents h' s'
               = sentence_contents Examples.some_heap Examples.source_sentence.
Proof.
  split; [vm_compute; reflexivity|]. split; [vm_compute; reflexivity|].
  eexists _, _. split; vm_compute; reflexivity.
Qed.

(** * Further properties of the readers *)

(** ** [map_sentences] and its visitor *)
Section VisitorFacts.
Context `{LibC} `{TreeLib} `{Memory} {V : Type}
  (proc : V → sentence_type tree → V * sentence_type tree).

(** The loop with any visitor against the loop with the accumulating
    one: the same reads, and the visitor applied in turn to sentences
    that hold what the accumulated ones hold.  They are the accumulated
    ones when the visitor leaves the sentence as it is. *)
Lemma visit_sentences_fold todo : ∀ fp dc ig sentence sentence' (v : V) acc,
  match visit_sentences accumulate todo fp dc ig sentence acc with
  | Ret (ok, fp', acc') =>
      ∃ new handed,
        acc' = acc ++ new
        ∧ visit_sentences proc todo fp dc ig sentence' v
          = Ret (ok, fp', fold_left (λ v s, (proc v s).1) handed v)
        ∧ sentence_data <$> handed = sentence_data <$> new
        ∧ (reads_only proc → sentence' = sentence → handed = new)
  | Crash e => visit_sentences proc todo fp dc ig sentence' v = Crash e
  end.
Proof.
  induction todo as [|todo IH]; intros fp dc ig sentence sentence' v acc; simpl.
  - exists [], []. by rewrite app_nil_r.
  - pose proof (sentence_read_indep fp dc ig sentence sentence') as Hind.
    destruct (sentence_type_read fp dc ig sentence) as [[[ok fp1] s1]|e] eqn:Hs;
      simpl.
    2: { by rewrite Hind. }
    destruct Hind as (t1 & Ht & Hdata). rewrite Ht. simpl. destruct ok.
    + destruct (proc v t1) as [v1 t2] eqn:Hproc.
      specialize (IH fp1 dc ig s1 t2 v1 (acc ++ [s1])).
      destruct (visit_sentences accumulate todo fp1 dc ig s1 (acc ++ [s1]))
        as [[[ok fp'] acc']|e]; [|done].
      destruct IH as (new & handed & -> & Hv & Hnew & Hsame).
      exists (s1 :: new), (t1 :: handed). rewrite <- app_assoc.
      split; [done|]. split; [simpl; by rewrite Hproc|]. split.
      * rewrite !fmap_cons. f_equal; [symmetry; by apply Hdata|done].
      * intros Hro ->. assert (t1 = s1) as -> by congruence.
        f_equal. apply Hsame; [done|]. specialize (Hro v s1).
        rewrite Hproc in Hro. exact Hro.
    + exists [], []. by rewrite app_nil_r.
Qed.

(** What the loop hands to its visitor: sentences that are complete,
    one for each iteration that ran. *)
Lemma visit_sentences_complete todo : ∀ fp dc ig sentence (v : V) ok fp' v',
  visit_sentences proc todo fp dc ig sentence v = Ret (ok, fp', v') →
  ∃ handed, v' = fold_left (λ v s, (proc v s).1) handed v
            ∧ Forall sentence_complete handed
            ∧ (length handed ≤ todo)%nat ∧ (ok = true → length handed = todo).
Proof.
  induction todo as [|todo IH]; intros fp dc ig sentence v ok fp' v' Hv;
    simpl in Hv.
  - inversion Hv; subst. exists []. by repeat split.
  - apply obind_ret in Hv as ([[ok1 fp1] s1] & Hread & Hv). destruct ok1.
    + destruct (proc v s1) as [v1 s2] eqn:Hproc.
      apply IH in Hv as (handed & -> & Hall & Hle & Hlen).
      exists (s1 :: handed). simpl. rewrite Hproc.
      split; [done|]. split; [|split; [lia|intros Hok; by rewrite Hlen]].
      apply Forall_cons. split; [|done].
      by apply sentence_read_scored in Hread.
    + inversion Hv; subst. exists [].
      repeat split; [apply Forall_nil_2|simpl; lia|discriminate].
Qed.
End VisitorFacts.

(** X1.  [map_sentences] with any visitor does the reads of
    [map_sentences] with the accumulating visitor and returns the same
    count.  Its visitor is applied in turn to sentences that hold the
    gold trees, edge counts and parses of the accumulated ones, and it
    is left in the state these applications give.  When the visitor
    leaves the sentence it is handed as it is, the sentences it is
    applied to are the accumulated ones. *)
Theorem map_sentences_is_fold `{LibC} `{TreeLib} `{Memory} {V : Type}
    (proc : V → sentence_type tree → V * sentence_type tree) fp dc ig (v : V) :
  match corpus_type_map_sentences accumulate fp dc ig [] with
  | Ret (n, fp', acc) =>
      ∃ handed,
        corpus_type_map_sentences proc fp dc ig v
        = Ret (n, fp', fold_left (λ v s, (proc v s).1) handed v)
        ∧ sentence_data <$> handed = sentence_data <$> acc
        ∧ (reads_only proc → handed = acc)
  | Crash e => corpus_type_map_sentences proc fp dc ig v = Crash e
  end.
Proof.
  unfold corpus_type_map_sentences.
  destruct (fscanf_u fp) as [[n|] fp1]; [|by exists []].
  pose proof (visit_sentences_fold proc (N.to_nat n) fp1 dc ig
                sentence_type_default sentence_type_default v []) as Hfold.
  destruct (visit_sentences accumulate (N.to_nat n) fp1 dc ig
              sentence_type_default []) as [[[ok fp'] acc]|e]; simpl.
  - destruct Hfold as (new & handed & Hacc & -> & Hdata & Hsame).
    simpl in Hacc. subst acc. exists handed. split; [done|]. split; [done|].
    intros Hro. by apply Hsame.
  - by rewrite Hfold.
Qed.

(** X2.  A count other than 0 returned by [map_sentences] is the count
    of the header, and then the visitor was applied to that many
    sentences, each with its gold tree and all its parses scored.  (0
    is returned for an empty corpus and for every failure alike.) *)
Theorem map_sentences_count `{LibC} `{TreeLib} `{Memory} {V : Type}
    (proc : V → sentence_type tree → V * sentence_type tree) fp dc ig (v : V)
    n fp' v' :
  corpus_type_map_sentences proc fp dc ig v = Ret (n, fp', v') →
  n ≠ 0 →
  (fscanf_u fp).1 = Some n
  ∧ ∃ acc, length acc = N.to_nat n
           ∧ Forall sentence_complete acc
           ∧ v' = fold_left (λ v s, (proc v s).1) acc v.
Proof.
  unfold corpus_type_map_sentences.
  destruct (fscanf_u fp) as [[m|] fp1]; [|by intros [= <- _ _]].
  intros ([[ok fp2] v2] & Hvisit & Hret)%obind_ret Hn. simpl in Hret.
  inversion Hret; subst. destruct ok; [|done]. split; [done|].
  apply visit_sentences_complete in Hvisit as (handed & -> & Hall & _ & Hlen).
  exists handed. by rewrite Hlen.
Qed.

Lemma map_sentences_count_witness :
  ∃ acc, length acc = 2%nat ∧ Forall sentence_complete acc
         ∧ result_of (corpus_type_map_sentences accumulate
                        Examples.two_sentences false false []) []
           = fold_left (λ v s, (accumulate v s).1) acc [].
Proof.
  destruct (map_sentences_count accumulate Examples.two_sentences false false
              [] 2 []
              (result_of (corpus_type_map_sentences accumulate
                            Examples.two_sentences false false []) []))
    as (_ & acc & Hlen & Hall & Hfold).
  - vm_compute. reflexivity.
  - discriminate.
  - exists acc. split; [exact Hlen|]. split; [exact Hall|exact Hfold].
Defined.

(** ** What a read leaves, and how a read can stop *)
Section ReadOutcomes.
Context `{LibC} `{TreeLib} `{Memory}.

(** The loop over the parses indexes a vector that was resized to the
    count: it never stops the run. *)
Lemma read_parses_returns todo : ∀ i fp dc ig ge (s : sentence_type tree),
  length (parses s) = (i + todo)%nat →
  ∃ r, read_parses todo i fp dc ig ge s = Ret r.
Proof.
  induction todo as [|todo IH]; intros i fp dc ig ge s Hlen; simpl; [eauto|].
  destruct (lookup_lt_is_Some_2 (parses s) i) as [p ->]; [lia|].
  destruct (parse_type_read fp dc ig p) as [[[] fp1] p1]; [|eauto].
  apply IH. case (float_gt _ _); simpl; rewrite length_insert; lia.
Qed.

Lemma sentence_read_crash_iff fp dc ig (s : sentence_type tree) e :
  sentence_type_read fp dc ig s = Crash e ↔
  ∃ n fp1,
    fscanf_u fp = (Some n, fp1)
    ∧ ((e = AssertFailed
        ∧ (ig = true
           ∨ ∃ buffer fp2, fgets BUFFER_SIZE fp1 = (Some buffer, fp2)
                           ∧ readtree buffer dc = None))
       ∨ (e = BadAlloc ∧ ig = false
          ∧ can_resize parses_fit n = false
          ∧ ∃ buffer fp2 g, fgets BUFFER_SIZE fp1 = (Some buffer, fp2)
                            ∧ readtree buffer dc = Some g)).
Proof.
  split.
  - unfold sentence_type_read.
    destruct (fscanf_u fp) as [[n|] fp1] eqn:Hn; [|done].
    intros Hc. exists n, fp1. split; [done|]. revert Hc.
    destruct ig.
    { intros [= <-]. left. by split; [|left]. }
    destruct (fgets BUFFER_SIZE fp1) as [[buffer|] fp2] eqn:Hb; [|done].
    cbn [gold set_gold]. destruct (readtree buffer dc) as [g|] eqn:Hg.
    + destruct (can_resize parses_fit n) eqn:Hfit.
      * intros Hc.
        destruct (read_parses_returns (N.to_nat n) 0 fp2 dc false
                    (tree_edges g) (sentence_before_parses n g s)) as [r Hr].
        { simpl. apply length_resize. }
        change (set_parses _ (set_gold_nedges _
                               (set_gold (Some g) (set_gold None s))))
          with (sentence_before_parses n g s) in Hc. congruence.
      * intros [= <-]. right. repeat split. by exists buffer, fp2, g.
    + intros [= <-]. left. split; [done|]. right. by exists buffer, fp2.
  - intros (n & fp1 & Hn & Hcase). unfold sentence_type_read. rewrite Hn.
    destruct Hcase as [(-> & [->|(buffer & fp2 & Hb & Hg)])
                      |(-> & -> & Hfit & buffer & fp2 & g & Hb & Hg)].
    + done.
    + destruct ig; [done|]. rewrite Hb. cbn [gold set_gold]. by rewrite Hg.
    + rewrite Hb. cbn [gold set_gold]. by rewrite Hg, Hfit.
Qed.

Lemma read_sentences_crash todo : ∀ i fp dc ig (c : corpus_type tree) e,
  length (sentences c) = (i + todo)%nat →
  read_sentences todo i fp dc ig c = Crash e →
  e = AssertFailed ∨ e = BadAlloc.
Proof.
  induction todo as [|todo IH]; intros i fp dc ig c e Hlen Hc; simpl in Hc;
    [done|].
  destruct (lookup_lt_is_Some_2 (sentences c) i) as [s Hs]; [lia|].
  rewrite Hs in Hc.
  destruct (sentence_type_read fp dc ig s) as [[[ok fp1] s1]|e1] eqn:Hread;
    simpl in Hc.
  - destruct ok; [|done]. eapply IH; [|exact Hc]. simpl.
    rewrite length_insert. lia.
  - inversion Hc; subst e1.
    apply sentence_read_crash_iff in Hread
      as (n & fp1 & _ & [(-> & _)|(-> & _)]); auto.
Qed.

(** After a loop that ran to its end, the sentences from [i] on are
    complete. *)
Lemma read_sentences_complete todo : ∀ i fp dc ig (c : corpus_type tree) fp' c',
  read_sentences todo i fp dc ig c = Ret (true, fp', c') →
  ∀ k s, (i ≤ k < i + todo)%nat → sentences c' !! k = Some s →
         sentence_complete s.
Proof.
  induction todo as [|todo IH]; intros i fp dc ig c fp' c' Hr k s Hk Hs;
    simpl in Hr; [lia|].
  destruct (sentences c !! i) as [s0|] eqn:Hs0; [|discriminate].
  apply obind_ret in Hr as ([[ok fp1] s1] & Hread & Hr).
  destruct ok; [|discriminate].
  destruct (decide (k = i)) as [->|Hne].
  - rewrite (read_sentences_below _ _ _ _ _ _ _ _ _ Hr i) in Hs by lia.
    simpl in Hs. rewrite list_lookup_insert_eq in Hs
      by by apply lookup_lt_Some in Hs0.
    inversion Hs; subst s1. by apply sentence_read_scored in Hread.
  - apply (IH _ _ _ _ _ _ _ Hr k); [lia|done].
Qed.

Lemma corpus_read_all_complete fp dc ig (c : corpus_type tree) fp' c' :
  corpus_type_read fp dc ig c = Ret (true, fp', c') →
  Forall sentence_complete (sentences c').
Proof.
  unfold corpus_type_read. destruct (fscanf_u fp) as [[n|] fp1]; [|done].
  destruct (can_resize sentences_fit n); [|done].
  intros Hr. apply Forall_lookup. intros k s Hs.
  eapply (read_sentences_complete _ _ _ _ _ _ _ _ Hr k); [|exact Hs].
  apply lookup_lt_Some in Hs.
  apply read_sentences_length in Hr. unfold nsentences in Hr. simpl in Hr.
  rewrite length_resize in Hr. lia.
Qed.
End ReadOutcomes.

(** X3.  What [sentence_type::read] returns, where it leaves the
    stream and, when it returns true, the gold tree, its edge count and
    the parses it leaves do not depend on what the object held before:
    a used object is read into as a new one is, [max_fscore] apart. *)
Theorem sentence_read_forgets_object `{LibC} `{TreeLib} `{Memory} fp dc ig
    (s : sentence_type tree) :
  match sentence_type_read fp dc ig s with
  | Ret (ok, fp', s') =>
      ∃ t', sentence_type_read fp dc ig sentence_type_default = Ret (ok, fp', t')
            ∧ (ok = true → gold s' = gold t'
                           ∧ gold_nedges s' = gold_nedges t'
                           ∧ parses s' = parses t')
  | Crash e => sentence_type_read fp dc ig sentence_type_default = Crash e
  end.
Proof.
  pose proof (sentence_read_indep fp dc ig s sentence_type_default) as Hind.
  destruct (sentence_type_read fp dc ig s) as [[[ok fp'] s']|e]; [|done].
  destruct Hind as (t' & Ht & Hdata). exists t'. split; [done|].
  intros Hok. specialize (Hdata Hok). unfold sentence_data in Hdata.
  by inversion Hdata.
Qed.

(** X4.  [sentence_type::read] stops the run in two cases only, both
    after the count of parses was read.  One is [assert(gold != NULL)]
    with [gold] still [NULL], because trees are ignored or because
    [readtree] made no tree of the gold line.  The other is
    [parses.resize] for a count that does not fit a vector, once the
    gold tree is there.  A stream that ends early or a count that does
    not scan never stops the run. *)
Theorem sentence_read_stops_iff `{LibC} `{TreeLib} `{Memory} fp dc ig
    (s : sentence_type tree) e :
  sentence_type_read fp dc ig s = Crash e ↔
  ∃ n fp1,
    fscanf_u fp = (Some n, fp1)
    ∧ ((e = AssertFailed
        ∧ (ig = true
           ∨ ∃ buffer fp2, fgets BUFFER_SIZE fp1 = (Some buffer, fp2)
                           ∧ readtree buffer dc = None))
       ∨ (e = BadAlloc ∧ ig = false
          ∧ can_resize parses_fit n = false
          ∧ ∃ buffer fp2 g, fgets BUFFER_SIZE fp1 = (Some buffer, fp2)
                            ∧ readtree buffer dc = Some g)).
Proof. apply sentence_read_crash_iff. Qed.

(** X5.  [corpus_type::read] never indexes its vectors out of range and
    never dereferences a null tree: when it stops the run, it is on the
    assertion of [sentence_type::read] or on a vector that cannot be
    resized to the count read. *)
Theorem corpus_read_stops_on_assert_or_alloc `{LibC} `{TreeLib} `{Memory} fp dc ig
    (c : corpus_type tree) e :
  corpus_type_read fp dc ig c = Crash e → e = AssertFailed ∨ e = BadAlloc.
Proof.
  unfold corpus_type_read. destruct (fscanf_u fp) as [[n|] fp1]; [|done].
  destruct (can_resize sentences_fit n); [|intros [= <-]; by right].
  apply read_sentences_crash. simpl. apply length_resize.
Qed.

Lemma corpus_read_stops_on_assert_or_alloc_witness :
  corpus_type_read Examples.huge_counts false false corpus_type_default
  = Crash BadAlloc
  ∧ (BadAlloc = AssertFailed ∨ BadAlloc = BadAlloc).
Proof.
  split; [vm_compute; reflexivity|].
  apply (corpus_read_stops_on_assert_or_alloc Examples.huge_counts false false
           corpus_type_default).
  vm_compute. reflexivity.
Defined.

(** ** The maximal f-score after a read *)

(** X6.  After a read that returns true, [max_fscore] is at least what
    it was on entry and at least the f-score of every parse, and it is
    either what it was on entry or the f-score of one of the parses:
    [read] folds the f-scores of the sentence into the value the object
    came with. *)
Theorem sentence_read_running_max `{LibC} `{TreeLib} `{Memory} fp dc ig
    (s : sentence_type tree) fp' s' :
  sentence_type_read fp dc ig s = Ret (true, fp', s') →
  (max_fscore s <= max_fscore s')%Q
  ∧ (∀ p, p ∈ parses s' → (f_score p <= max_fscore s')%Q)
  ∧ (max_fscore s' = max_fscore s
     ∨ ∃ p, p ∈ parses s' ∧ max_fscore s' = f_score p).
Proof. apply sentence_read_max_fscore. Qed.

Lemma sentence_read_running_max_witness :
  let s' := returned (sentence_type_read Examples.one_sentence false false
                        sentence_type_default) sentence_type_default in
  (max_fscore (@sentence_type_default tree) <= max_fscore s')%Q
  ∧ (∀ p, p ∈ parses s' → (f_score p <= max_fscore s')%Q)
  ∧ (max_fscore s' = max_fscore (@sentence_type_default tree)
     ∨ ∃ p, p ∈ parses s' ∧ max_fscore s' = f_score p).
Proof.
  apply (sentence_read_running_max Examples.one_sentence false false
           sentence_type_default []).
  vm_compute. reflexivity.
Defined.

(** X7.  A sentence read into a new object, or into any object whose
    [max_fscore] is 0, has for [max_fscore] the maximum of the f-scores
    of its parses, and 0 when it has no parse. *)
Theorem sentence_read_new_object_max `{LibC} `{TreeLib} `{Memory} fp dc ig
    (s : sentence_type tree) fp' s' :
  max_fscore s = 0%Q →
  sentence_type_read fp dc ig s = Ret (true, fp', s') →
  (∀ p, p ∈ parses s' → (f_score p <= max_fscore s')%Q)
  ∧ (parses s' = [] → max_fscore s' = 0%Q)
  ∧ (parses s' ≠ [] → ∃ p, p ∈ parses s' ∧ max_fscore s' = f_score p).
Proof. apply sentence_read_fresh_max_fscore. Qed.

Lemma sentence_read_new_object_max_witness :
  let s' := returned (sentence_type_read Examples.one_sentence false false
                        sentence_type_default) sentence_type_default in
  (∀ p, p ∈ parses s' → (f_score p <= max_fscore s')%Q)
  ∧ (parses s' = [] → max_fscore s' = 0%Q)
  ∧ (parses s' ≠ [] → ∃ p, p ∈ parses s' ∧ max_fscore s' = f_score p).
Proof.
  apply (sentence_read_new_object_max Examples.one_sentence false false
           sentence_type_default []); [reflexivity|].
  vm_compute. reflexivity.
Defined.

(** ** A corpus that was read *)

(** X8.  When [corpus_type::read] returns true, whatever the corpus
    held before, every sentence of the corpus has a gold tree, the edge
    count of that tree, and parses that are all scored against it. *)
Theorem corpus_read_complete `{LibC} `{TreeLib} `{Memory} fp dc ig
    (c : corpus_type tree) fp' c' :
  corpus_type_read fp dc ig c = Ret (true, fp', c') →
  Forall sentence_complete (sentences c').
Proof. apply corpus_read_all_complete. Qed.

Lemma corpus_read_complete_witness :
  Forall sentence_complete
    (sentences (returned (corpus_type_read Examples.two_sentences false false
                            corpus_type_default) corpus_type_default)).
Proof.
  apply (corpus_read_complete Examples.two_sentences false false
           corpus_type_default []).
  vm_compute. reflexivity.
Defined.

(** X9.  The constructor [corpus_type(FILE* fp)] returns only a corpus
    that was read to its end: the header count scanned, the corpus has
    that many sentences and all are complete.  On any failed read it
    stops on [assert(status == true)]. *)
Theorem corpus_from_file_complete `{LibC} `{TreeLib} `{Memory} fp dc ig fp'
    (c : corpus_type tree) :
  corpus_type_from_file fp dc ig = Ret (fp', c) →
  corpus_type_read fp dc ig corpus_type_default = Ret (true, fp', c)
  ∧ (∃ M, (fscanf_u fp).1 = Some M ∧ nsentences c = N.to_nat M)
  ∧ Forall sentence_complete (sentences c).
Proof.
  unfold corpus_type_from_file. intros Hc.
  apply obind_ret in Hc as ([[status fp1] c1] & Hread & Hc).
  destruct status; [|discriminate]. inversion Hc; subst fp1 c1.
  split; [done|]. split; [|eapply corpus_read_all_complete; exact Hread].
  unfold corpus_type_read in Hread.
  destruct (fscanf_u fp) as [[M|] fp1]; [|discriminate].
  destruct (can_resize sentences_fit M); [|discriminate].
  exists M. split; [done|]. apply read_sentences_length in Hread.
  rewrite Hread. unfold nsentences. simpl. apply length_resize.
Qed.

Lemma corpus_from_file_complete_witness :
  let c := result_of (corpus_type_from_file Examples.two_sentences false false)
             corpus_type_default in
  corpus_type_read Examples.two_sentences false false corpus_type_default
  = Ret (true, [], c)
  ∧ (∃ M, (fscanf_u Examples.two_sentences).1 = Some M
          ∧ nsentences c = N.to_nat M)
  ∧ Forall sentence_complete (sentences c).
Proof.
  apply (corpus_from_file_complete Examples.two_sentences false false []).
  vm_compute. reflexivity.
Defined.

(** ** White space and lines *)

Lemma skip_space_app (ws fp : list byte) :
  Forall (λ c, isspace c = true) ws → skip_space (ws ++ fp) = skip_space fp.
Proof.
  induction ws as [|c ws IH]; [done|]. intros [Hc Hws]%Forall_cons.
  simpl. rewrite Hc. by apply IH.
Qed.

(** X10.  White space before a count or a log probability is not part
    of the data: blank lines and spaces in front of a corpus, of a
    sentence or of a parse change nothing of what the readers do. *)
Theorem readers_skip_leading_space `{LibC} `{TreeLib} `{Memory} (ws fp : list byte) dc ig :
  Forall (λ c, isspace c = true) ws →
  (∀ c, corpus_type_read (ws ++ fp) dc ig c = corpus_type_read fp dc ig c)
  ∧ (∀ s, sentence_type_read (ws ++ fp) dc ig s
          = sentence_type_read fp dc ig s)
  ∧ (∀ p, parse_type_read (ws ++ fp) dc ig p = parse_type_read fp dc ig p)
  ∧ (∀ V (proc : V → sentence_type tree → V * sentence_type tree) v,
       corpus_type_map_sentences proc (ws ++ fp) dc ig v
       = corpus_type_map_sentences proc fp dc ig v).
Proof.
  intros Hws.
  assert (fscanf_u (ws ++ fp) = fscanf_u fp) as Hu.
  { unfold fscanf_u. by rewrite skip_space_app. }
  assert (fscanf_lf (ws ++ fp) = fscanf_lf fp) as Hlf.
  { unfold fscanf_lf. by rewrite skip_space_app. }
  repeat split; intros.
  - unfold corpus_type_read. by rewrite Hu.
  - unfold sentence_type_read. by rewrite Hu.
  - unfold parse_type_read. by rewrite Hlf.
  - unfold corpus_type_map_sentences. by rewrite Hu.
Qed.

Lemma readers_skip_leading_space_witness :
  sentence_type_read ([newline; " "%byte] ++ Examples.one_sentence) false false
    sentence_type_default
  = sentence_type_read Examples.one_sentence false false sentence_type_default.
Proof.
  refine (proj1 (proj2 (readers_skip_leading_space [newline; " "%byte]
                          Examples.one_sentence false false _)) _).
  repeat constructor.
Defined.

Lemma fgets_bytes_short room : ∀ (line rest : list byte),
  (length line < room)%nat →
  Forall (λ c, is_newline c = false) line →
  fgets_bytes room (line ++ newline :: rest) = (line ++ [newline], rest).
Proof.
  induction room as [|room IH]; intros line rest Hlen Hnl; [lia|].
  destruct line as [|c line]; [done|].
  apply Forall_cons in Hnl as [Hc Hnl]. simpl. rewrite Hc.
  rewrite IH; [done|simpl in Hlen; lia|done].
Qed.

(** X11.  A tree line of fewer than 3999 bytes is read whole: the tree
    of a parse or the gold tree is made of the line with its newline,
    and the stream is left at the start of the next line, where the
    parses of a sentence are read once the vector is resized to their
    count. *)
Theorem short_tree_line_whole `{LibC} `{TreeLib} `{Memory} (line rest : list byte) dc :
  (length line < BUFFER_SIZE - 1)%nat →
  Forall (λ c, is_newline c = false) line →
  let stream := line ++ newline :: rest in
  (∀ fp x p,
     fscanf_lf fp = (Some x, stream) →
     parse_type_read fp dc false p
     = (true, rest,
        set_parse (readtree (line ++ [newline]) dc)
          (set_logprob x (set_parse None p))))
  ∧ (∀ fp n s g,
       fscanf_u fp = (Some n, stream) →
       readtree (line ++ [newline]) dc = Some g →
       sentence_type_read fp dc false s
       = if can_resize parses_fit n
         then read_parses (N.to_nat n) 0 rest dc false (tree_edges g)
                (sentence_before_parses n g s)
         else Crash BadAlloc).
Proof.
  intros Hlen Hnl stream.
  assert (fgets BUFFER_SIZE stream = (Some (line ++ [newline]), rest)) as Hfgets.
  { unfold fgets, stream. destruct (line ++ newline :: rest) eqn:E.
    { by destruct line. }
    rewrite <- E. by rewrite fgets_bytes_short. }
  split.
  - intros fp x p Hx. unfold parse_type_read. by rewrite Hx, Hfgets.
  - intros fp n s g Hn Hg. unfold sentence_type_read.
    rewrite Hn, Hfgets. cbn [gold set_gold]. by rewrite Hg.
Qed.

Lemma short_tree_line_whole_witness :
  parse_type_read (c_str "-3 " ++ Stub.line Examples.gold_text) false false
    parse_type_default
  = (true, [],
     set_parse (readtree (Stub.line Examples.gold_text) false)
       (set_logprob (-3)%Q (set_parse None parse_type_default))).
Proof.
  refine (proj1 (short_tree_line_whole (c_str Examples.gold_text) [] false _ _)
            (c_str "-3 " ++ Stub.line Examples.gold_text) (-3)%Q
            parse_type_default _).
  - apply Nat.ltb_lt. vm_compute. reflexivity.
  - apply (bool_decide_unpack _). vm_compute. reflexivity.
  - vm_compute. reflexivity.
Defined.

(** [fgets] returns [NULL] at the end of the stream only. *)
Lemma fgets_None size (fp : FILE) : (fgets size fp).1 = None ↔ fp = [].
Proof.
  destruct fp as [|c fp]; [done|]. unfold fgets.
  by destruct (fgets_bytes (size - 1) (c :: fp)).
Qed.

(** X12.  [parse_type::read] returns false in two cases only: the log
    probability does not scan, or trees are read and the stream ends
    after the log probability.  It then leaves the parse without a
    tree; and whatever it returns, it leaves the counts and the f-score
    of the parse as they were. *)
Theorem parse_read_fails_iff `{LibC} `{TreeLib} fp dc ig (p : parse_type tree) :
  let '(ok, fp', p') := parse_type_read fp dc ig p in
  (ok = false ↔
     (fscanf_lf fp).1 = None ∨ (ig = false ∧ (fscanf_lf fp).2 = []))
  ∧ (ok = false → parse p' = None)
  ∧ nedges p' = nedges p ∧ ncorrect p' = ncorrect p ∧ f_score p' = f_score p.
Proof.
  unfold parse_type_read. destruct (fscanf_lf fp) as [[x|] fp1]; cbn [fst snd].
  - destruct ig.
    + split; [|done]. split; [done|]. intros [?|[? _]]; done.
    + pose proof (fgets_None BUFFER_SIZE fp1) as Hnone.
      destruct (fgets BUFFER_SIZE fp1) as [[buffer|] fp2]; cbn [fst] in Hnone.
      * split; [|done]. split; [done|].
        intros [?|[_ ?%Hnone]]; done.
      * split; [|done]. split; [|done]. intros _. right.
        split; [done|]. by apply Hnone.
  - split; [|done]. split; [|done]. intros _. by left.
Qed.

(** ** The accessors after a read *)

(** X13.  On a sentence that [read] returned true for, the accessors
    are safe for every index below [nparses()]: the assertions of
    [precrec(i, pr)] hold and it scores parse [i] against the gold
    tree, and [f_score(i)] is the f-score of parse [i], which is at most
    [max_fscore].  From [nparses()] on, [precrec(i, pr)] stops on its
    assertion and [f_score(i)] reads past the end of the vector. *)
Theorem sentence_accessors_after_read `{LibC} `{PrecRecLib} `{Memory} fp dc ig
    (s : sentence_type tree) fp' s' (i : nat) (pr : precrec_type) :
  sentence_type_read fp dc ig s = Ret (true, fp', s') →
  ((i < nparses s')%nat →
   ∃ g p, gold s' = Some g ∧ parses s' !! i = Some p
          ∧ sentence_type_precrec s' i pr = Ret (precrec_call pr g (parse p))
          ∧ sentence_type_f_score s' i = Ret (f_score p)
          ∧ (f_score p <= max_fscore s')%Q)
  ∧ ((nparses s' ≤ i)%nat →
     sentence_type_precrec s' i pr = Crash AssertFailed
     ∧ sentence_type_f_score s' i = Crash OutOfRange).
Proof.
  intros Hr.
  destruct (sentence_read_scored _ _ _ _ _ _ Hr) as (g & Hg & _).
  destruct (sentence_read_max_fscore _ _ _ _ _ _ Hr) as (_ & Hmax & _).
  unfold sentence_type_precrec, sentence_type_f_score, assert. rewrite Hg.
  split.
  - intros Hi. destruct (lookup_lt_is_Some_2 (parses s') i Hi) as [p Hp].
    exists g, p. rewrite Hp, bool_decide_true by done.
    repeat split; try done. apply Hmax, list_elem_of_lookup. eauto.
  - intros Hi. rewrite bool_decide_false by lia.
    by rewrite (lookup_ge_None_2 (parses s') i).
Qed.

Lemma sentence_accessors_after_read_witness :
  let s' := returned (sentence_type_read Examples.one_sentence false false
                        sentence_type_default) sentence_type_default in
  sentence_type_f_score s' 0 = Ret 1%Q
  ∧ sentence_type_f_score s' 1 = Crash OutOfRange.
Proof.
  intros s'.
  destruct (sentence_accessors_after_read Examples.one_sentence false false
              sentence_type_default [] s' 0 precrec_new)
    as [Hin _]; [vm_compute; reflexivity|].
  destruct (sentence_accessors_after_read Examples.one_sentence false false
              sentence_type_default [] s' 1 precrec_new)
    as [_ Hout]; [vm_compute; reflexivity|].
  destruct Hin as (g & p & _ & Hp & _ & Hf & _); [vm_compute; lia|].
  destruct Hout as [_ Hout]; [vm_compute; lia|].
  split; [|exact Hout]. rewrite Hf. f_equal.
  assert (Some p = Some (set_score {| ncommon := 7; ngold := 7; ntest := 7 |}
                          (set_parse (readtree (Stub.line Examples.gold_text) false)
                             (set_logprob (-3)%Q parse_type_default)))) as Heq.
  { rewrite <- Hp. vm_compute. reflexivity. }
  inversion Heq. reflexivity.
Defined.

(** * Further properties of the copy operations *)
Section CopyFacts.
Context {tree : Type}.
Implicit Types (h : heap tree).

(** A destructor call over a range commutes with the deletion of a
    tree that no element of the range owns. *)
Lemma vector_destroy_delete (ps : list (parse_type loc)) : ∀ h h' k,
  vector_destroy ps h = Ret (tt, h') →
  Forall (λ p, parse p ≠ Some k) ps →
  vector_destroy ps (delete k h) = Ret (tt, delete k h').
Proof.
  induction ps as [|p ps IH]; intros h h' k Hd Hk; simpl in *.
  - by inversion Hd.
  - apply Forall_cons in Hk as [Hp Hps]. rewrite M_bind_unfold in *.
    unfold parse_type_destroy, delete_if_set in *.
    destruct (parse p) as [l0|].
    + unfold delete_tree in *.
      destruct (h !! l0) as [t0|] eqn:Hl0; [|discriminate].
      rewrite lookup_delete_ne by congruence. rewrite Hl0.
      rewrite delete_delete. by apply IH.
    + by apply IH.
Qed.

(** Destroying the copies of a vector, in the heap the copy left, gives
    back the heap the copy started from. *)
Lemma vector_copy_destroy (src : list (parse_type loc)) : ∀ h ps h',
  parses_live h src →
  vector_copy src h = Ret (ps, h') →
  vector_destroy ps h' = Ret (tt, h).
Proof.
  induction src as [|dp src IH]; intros h ps h' Hlive Hc.
  - by inversion Hc.
  - apply Forall_cons in Hlive as [Hdp Hsrc].
    destruct (parse_type_copy_spec dp h Hdp) as (p & h1 & Hp & Hsub & _ & Hnew).
    destruct (vector_copy_spec src h1 (parses_live_mono _ _ _ Hsub Hsrc))
      as (ps' & h2 & Hv & Hsub' & _ & Hnews).
    simpl in Hc. rewrite M_bind_unfold, Hp, M_bind_unfold, Hv in Hc.
    inversion Hc; subst ps h'. specialize (IH h1 ps' h2
      (parses_live_mono _ _ _ Hsub Hsrc) Hv).
    cbn [vector_destroy]. rewrite M_bind_unfold.
    unfold parse_type_destroy, delete_if_set.
    destruct (parse dp) as [l|] eqn:Hl.
    + destruct (Hdp l eq_refl) as [t Ht].
      destruct (parse_type_copy_deep dp l t h Hl Ht) as (l' & Hp' & Hfresh & _).
      rewrite Hp in Hp'. inversion Hp'; subst p h1. cbn [parse set_parse].
      unfold delete_tree.
      rewrite (lookup_weaken _ _ l' t (lookup_insert_eq h l' t) Hsub').
      rewrite (vector_destroy_delete ps' h2 (<[l':=t]> h) l' IH).
      * by rewrite delete_insert_id.
      * eapply Forall_impl; [exact Hnews|]. intros q Hq Hk.
        destruct (Hq l' Hk) as [Hnone _]. by rewrite lookup_insert_eq in Hnone.
    + rewrite parse_type_copy_null in Hp by done.
      inversion Hp; subst p h1. by rewrite Hl.
Qed.

(** Copy construction of a sentence, with or without a gold tree: the
    copy has the contents of the source and every tree it owns is at a
    location that was not live. *)
Lemma sentence_type_copy_spec (s : sentence_type loc) h :
  parses_live h (parses s) →
  (∀ g, gold s = Some g → is_Some (h !! g)) →
  ∃ s' h', sentence_type_copy s h = Ret (s', h') ∧ h ⊆ h'
           ∧ sentence_contents h' s' = sentence_contents h s
           ∧ (∀ k, gold s' = Some k → h !! k = None)
           ∧ Forall (λ p, ∀ k, parse p = Some k → h !! k = None) (parses s')
           ∧ sentence_type_destroy s' h' = Ret (tt, h).
Proof.
  intros Hlive Hgold. destruct (gold s) as [g|] eqn:Hg.
  - destruct (Hgold g eq_refl) as [t Ht].
    destruct (sentence_type_copy_deep s g t h Hg Ht Hlive)
      as (s' & h' & g' & Hc & Hsub & Hcont & Hg' & _ & Hfresh & _ & Hps).
    exists s', h'. split; [done|]. split; [done|]. split; [done|].
    split; [intros k; rewrite Hg'; by intros [= <-]|]. split; [done|].
    unfold sentence_type_copy in Hc.
    destruct (vector_copy_spec (parses s) h Hlive) as (ps & h1 & Hv & Hsub1 & _).
    rewrite M_bind_unfold, Hv, Hg in Hc.
    destruct (copy_tree_live g t h1 (lookup_weaken _ _ _ _ Ht Hsub1))
      as (g'' & Hcg & Hfresh1).
    rewrite M_bind_unfold, Hcg in Hc. inversion Hc; subst s' h'.
    unfold sentence_type_destroy. rewrite M_bind_unfold. cbn [gold set_gold parses].
    simpl. unfold delete_tree. rewrite lookup_insert_eq.
    rewrite delete_insert_id by done.
    exact (vector_copy_destroy (parses s) h ps h1 Hlive Hv).
  - unfold sentence_type_copy.
    destruct (vector_copy_spec (parses s) h Hlive)
      as (ps & h1 & Hv & Hsub1 & Hconts & Hnews).
    rewrite M_bind_unfold, Hv, Hg. eexists _, _. split; [done|].
    split; [done|]. split; [|split; [done|split]].
    + unfold sentence_contents; simpl. rewrite Hg. simpl. by rewrite Hconts.
    + simpl. eapply Forall_impl; [exact Hnews|]. intros p Hp k Hk.
      by apply Hp.
    + unfold sentence_type_destroy. rewrite M_bind_unfold. simpl.
      exact (vector_copy_destroy (parses s) h ps h1 Hlive Hv).
Qed.
End CopyFacts.

(** X14.  The copy constructor of [parse_type], for a parse whose tree
    pointer is null or live: it returns a parse with the same contents,
    leaves every tree that was live as it is, gives the copy a tree of
    its own at a location that was not live (or no tree when the source
    has none), and destroying the copy gives back the heap as it was. *)
Theorem parse_copy_is_deep {T : Type} (dp : parse_type loc) (h : heap T) :
  (∀ l, parse dp = Some l → is_Some (h !! l)) →
  ∃ p h', parse_type_copy dp h = Ret (p, h') ∧ h ⊆ h'
          ∧ parse_contents h' p = parse_contents h dp
          ∧ (∀ l, parse p = Some l → h !! l = None)
          ∧ (parse p = None ↔ parse dp = None)
          ∧ parse_type_destroy p h' = Ret (tt, h).
Proof.
  intros Hlive.
  destruct (parse_type_copy_spec dp h Hlive) as (p & h' & Hc & Hsub & Hcont & Hnew).
  exists p, h'. split; [done|]. split; [done|]. split; [done|].
  split; [intros l Hl; by apply Hnew|].
  assert (vector_copy [dp] h = Ret ([p], h')) as Hv.
  { simpl. by rewrite M_bind_unfold, Hc. }
  apply vector_copy_destroy in Hv; [|by apply Forall_singleton].
  simpl in Hv. rewrite M_bind_unfold in Hv.
  split.
  - destruct (parse dp) as [l|] eqn:Hl.
    + destruct (Hlive l eq_refl) as [t Ht].
      destruct (parse_type_copy_deep dp l t h Hl Ht) as (l' & Hc' & _).
      rewrite Hc in Hc'. inversion Hc'; subst. done.
    + rewrite parse_type_copy_null in Hc by done. inversion Hc; subst.
      by rewrite Hl.
  - destruct (parse_type_destroy p h') as [[[] h'']|e]; [|done].
    by inversion Hv.
Qed.

Lemma parse_copy_is_deep_witness :
  ∃ p h', parse_type_copy (Examples.target_parse 4%positive) Examples.some_heap
          = Ret (p, h')
          ∧ parse_contents h' p
            = parse_contents Examples.some_heap (Examples.target_parse 4%positive)
          ∧ parse_type_destroy p h' = Ret (tt, Examples.some_heap).
Proof.
  destruct (parse_copy_is_deep (Examples.target_parse 4%positive)
              Examples.some_heap)
    as (p & h' & Hc & _ & Hcont & _ & _ & Hd).
  - intros l [= <-]. vm_compute. eauto.
  - by exists p, h'.
Defined.

(** X15.  [parse_type::operator=] from a parse that owns a live tree,
    onto a distinct object that owns another live tree or none: the
    destination takes the log probability, the counts and the f-score
    of the source, its old tree is deleted, and it owns a new tree with
    the contents of the source's, which stays in place. *)
Theorem parse_assign_is_deep {T : Type} this_addr dp_addr
    (this dp : parse_type loc) l (t : T) (h : heap T) :
  this_addr ≠ dp_addr →
  parse dp = Some l → h !! l = Some t →
  (∀ l0, parse this = Some l0 → is_Some (h !! l0) ∧ l0 ≠ l) →
  let h0 := match parse this with Some l0 => delete l0 h | None => h end in
  ∃ l', parse_type_assign this_addr dp_addr this dp h
        = Ret (set_parse (Some l') dp, <[l':=t]> h0)
        ∧ h0 !! l' = None ∧ l' ≠ l
        ∧ <[l':=t]> h0 !! l = Some t.
Proof. apply parse_type_assign_deep. Qed.

Lemma parse_assign_is_deep_witness :
  ∃ l', parse_type_assign 1%positive 2%positive (Examples.target_parse 4%positive)
          (Examples.target_parse 5%positive) Examples.some_heap
        = Ret (Examples.target_parse l',
               <[l' := Stub.line Examples.other_text]>
                 (delete 4%positive Examples.some_heap))
        ∧ l' ≠ 5%positive.
Proof.
  destruct (parse_assign_is_deep 1%positive 2%positive
              (Examples.target_parse 4%positive)
              (Examples.target_parse 5%positive) 5%positive
              (Stub.line Examples.other_text) Examples.some_heap)
    as (l' & Ha & _ & Hne & _).
  - discriminate.
  - reflexivity.
  - vm_compute. reflexivity.
  - intros l0 [= <-]. split; [vm_compute; eauto|discriminate].
  - by exists l'.
Defined.

(** X16.  The copy constructor of [sentence_type], for a sentence whose
    tree pointers are null or live: it returns a sentence with the same
    contents, leaves every tree that was live as it is, gives the copy
    trees of its own at locations that were not live, and destroying
    the copy gives back the heap as it was. *)
Theorem sentence_copy_is_deep {T : Type} (s : sentence_type loc) (h : heap T) :
  parses_live h (parses s) →
  (∀ g, gold s = Some g → is_Some (h !! g)) →
  ∃ s' h', sentence_type_copy s h = Ret (s', h') ∧ h ⊆ h'
           ∧ sentence_contents h' s' = sentence_contents h s
           ∧ (∀ k, gold s' = Some k → h !! k = None)
           ∧ Forall (λ p, ∀ k, parse p = Some k → h !! k = None) (parses s')
           ∧ sentence_type_destroy s' h' = Ret (tt, h).
Proof. apply sentence_type_copy_spec. Qed.

Lemma sentence_copy_is_deep_witness :
  ∃ s' h', sentence_type_copy Examples.source_sentence Examples.some_heap
           = Ret (s', h')
           ∧ sentence_contents h' s'
             = sentence_contents Examples.some_heap Examples.source_sentence
           ∧ sentence_type_destroy s' h' = Ret (tt, Examples.some_heap).
Proof.
  destruct (sentence_copy_is_deep Examples.source_sentence Examples.some_heap)
    as (s' & h' & Hc & _ & Hcont & _ & _ & Hd).
  - repeat constructor; intros l [= <-]. vm_compute. eauto.
  - intros g [= <-]. vm_compute. eauto.
  - by exists s', h'.
Defined.

(** X17.  A copy outlives its original: after a sentence that owns a
    gold tree is copied and the original is destroyed, the gold tree of
    the copy is in place with the contents the original had. *)
Theorem sentence_copy_survives_destroy {T : Type} (s : sentence_type loc)
    g (t : T) (h : heap T) s' h1 h2 :
  gold s = Some g → h !! g = Some t → parses_live h (parses s) →
  sentence_type_copy s h = Ret (s', h1) →
  sentence_type_destroy s h1 = Ret (tt, h2) →
  owned h2 (gold s') = Some t.
Proof. apply sentence_copy_outlives_original. Qed.

Lemma sentence_copy_survives_destroy_witness :
  let copied := sentence_type_copy Examples.source_sentence Examples.some_heap in
  let s' := value_of copied sentence_type_default in
  let h1 := result_of copied ∅ in
  let h2 := result_of (sentence_type_destroy Examples.source_sentence h1) ∅ in
  owned h2 (gold s') = Some (Stub.line Examples.gold_text).
Proof.
  intros copied s' h1 h2.
  apply (sentence_copy_survives_destroy Examples.source_sentence 1%positive
           (Stub.line Examples.gold_text) Examples.some_heap s' h1 h2).
  - reflexivity.
  - vm_compute. reflexivity.
  - repeat constructor; intros l [= <-]. vm_compute. eauto.
  - vm_compute. reflexivity.
  - vm_compute. reflexivity.
Defined.

(** X18.  [sentence_type::operator=] onto a distinct sentence that has
    no parses, from a sentence that owns a gold tree, whether or not
    all its parses have trees: the destination gets the contents of the
    source with a gold tree of its own, its old gold tree is deleted,
    and the gold tree of the source stays in place. *)
Theorem sentence_assign_onto_empty {T : Type} this_addr s_addr capacity
    (this s : sentence_type loc) g (t : T) (h : heap T) :
  this_addr ≠ s_addr →
  parses this = [] →
  gold s = Some g → h !! g = Some t → parses_live h (parses s) →
  (∀ g0, gold this = Some g0 → is_Some (h !! g0) ∧ g0 ≠ g) →
  ∃ s' h' g',
    sentence_type_assign this_addr s_addr capacity this s h = Ret (s', h')
    ∧ sentence_contents h' s' = sentence_contents h s
    ∧ gold s' = Some g' ∧ g' ≠ g
    ∧ h' !! g' = Some t ∧ h' !! g = Some t.
Proof. apply sentence_type_assign_onto_empty. Qed.

Lemma sentence_assign_onto_empty_witness :
  ∃ s' h',
    sentence_type_assign 1%positive 2%positive 0 sentence_type_default
      Examples.source_sentence Examples.some_heap = Ret (s', h')
    ∧ sentence_contents h' s'
      = sentence_contents Examples.some_heap Examples.source_sentence.
Proof.
  destruct (sentence_assign_onto_empty 1%positive 2%positive 0%nat
              sentence_type_default Examples.source_sentence 1%positive
              (Stub.line Examples.gold_text) Examples.some_heap)
    as (s' & h' & g' & Ha & Hcont & _).
  - discriminate.
  - reflexivity.
  - reflexivity.
  - vm_compute. reflexivity.
  - repeat constructor; intros l [= <-]. vm_compute. eauto.
  - intros g0 [=].
  - by exists s', h'.
Defined.

(** * Further properties of the choice of the decompressor *)

Lemma tolower_zero (c : byte) : tolower c = 0%Z → c = x00.
Proof.
  unfold tolower. intros Hz.
  assert (Byte.to_N c = 0) as Hn.
  { destruct ((65 <=? Z.of_N (Byte.to_N c)) && (Z.of_N (Byte.to_N c) <=? 90))%Z;
      lia. }
  pose proof (Byte.of_to_N c) as Hc. rewrite Hn in Hc. by inversion Hc.
Qed.

(** Two strings without a NUL byte that compare equal are equal once
    lowered. *)
Lemma strcasecmp_zero_inv (a b : list byte) :
  x00 ∉ a → x00 ∉ b → strcasecmp a b = 0%Z → tolower <$> a = tolower <$> b.
Proof.
  revert b. induction a as [|x a IH]; intros [|y b] Ha Hb Hz; simpl in Hz.
  - done.
  - assert (tolower y = 0%Z) as Hy%tolower_zero by lia. set_solver.
  - apply tolower_zero in Hz. set_solver.
  - rewrite !fmap_cons. destruct (tolower x =? tolower y)%Z eqn:E.
    + apply Z.eqb_eq in E. rewrite E. f_equal.
      apply IH; [set_solver..|done].
    + apply Z.eqb_neq in E. lia.
Qed.

Lemma strcasecmp_zero_iff (a b : list byte) :
  x00 ∉ a → x00 ∉ b →
  (strcasecmp a b =? 0)%Z = bool_decide (tolower <$> a = tolower <$> b).
Proof.
  intros Ha Hb. destruct (strcasecmp a b =? 0)%Z eqn:E.
  - apply Z.eqb_eq, strcasecmp_zero_inv in E; [|done..].
    by rewrite bool_decide_true.
  - rewrite bool_decide_false; [done|]. intros Heq%strcasecmp_lower.
    apply Z.eqb_neq in E. done.
Qed.

(** X19.  For a file name with a dot, [popen_decompress] chooses the
    command by what follows the last dot, letters compared without
    case: [bzcat] for [bz2], [gunzip -c] for [gz], [cat] for anything
    else; the command is followed by the file name as it is, and the
    run ends with [exit] when the command cannot be started. *)
Theorem popen_decompress_by_suffix `{Process} (base ext : list byte) :
  "."%byte ∉ ext → x00 ∉ ext →
  let filename := base ++ "."%byte :: ext in
  let lowered := tolower <$> ext in
  let command :=
    (if bool_decide (lowered = tolower <$> c_str "bz2") then c_str "bzcat "
     else if bool_decide (lowered = tolower <$> c_str "gz")
          then c_str "gunzip -c " else c_str "cat ") ++ filename in
  corpus_type_popen_decompress filename
  = match popen command with
    | Some fp => Ret fp
    | None => Crash ExitFailure
    end.
Proof.
  intros Hdot Hnul filename lowered command.
  unfold corpus_type_popen_decompress. subst filename.
  rewrite strrchr_last by done.
  change (c_str ".bz2") with ("."%byte :: c_str "bz2").
  change (c_str ".gz") with ("."%byte :: c_str "gz").
  cbn [strcasecmp]. change (tolower "." =? tolower ".")%Z with true.
  cbv iota.
  rewrite !strcasecmp_zero_iff; try done.
  - unfold c_str; simpl.
    repeat (apply not_elem_of_cons; split; [discriminate|]).
    apply not_elem_of_nil.
  - unfold c_str; simpl.
    repeat (apply not_elem_of_cons; split; [discriminate|]).
    apply not_elem_of_nil.
Qed.

Lemma popen_decompress_by_suffix_witness :
  corpus_type_popen_decompress (c_str "corpus.v2.BZ2")
  = Ret (c_str "bzcat corpus.v2.BZ2").
Proof.
  refine (popen_decompress_by_suffix (c_str "corpus.v2") (c_str "BZ2") _ _).
  - unfold c_str; simpl.
    repeat (apply not_elem_of_cons; split; [discriminate|]).
    apply not_elem_of_nil.
  - unfold c_str; simpl.
    repeat (apply not_elem_of_cons; split; [discriminate|]).
    apply not_elem_of_nil.
Defined.

(** * Reading into a corpus that was used *)
Section CorpusIndependence.
Context `{LibC} `{TreeLib} `{Memory}.

Lemma read_sentences_indep todo : ∀ i fp dc ig (c d : corpus_type tree),
  length (sentences c) = (i + todo)%nat →
  length (sentences d) = (i + todo)%nat →
  sentence_data <$> take i (sentences c) = sentence_data <$> take i (sentences d) →
  match read_sentences todo i fp dc ig c with
  | Ret (ok, fp', c') =>
      ∃ d', read_sentences todo i fp dc ig d = Ret (ok, fp', d')
            ∧ (ok = true →
               sentence_data <$> sentences c' = sentence_data <$> sentences d')
  | Crash e => read_sentences todo i fp dc ig d = Crash e
  end.
Proof.
  induction todo as [|todo IH]; intros i fp dc ig c d Hc Hd Htake; simpl.
  - exists d. split; [done|]. intros _.
    rewrite <- (take_ge (sentences c) i), <- (take_ge (sentences d) i) by lia.
    done.
  - destruct (lookup_lt_is_Some_2 (sentences c) i) as [s Hs]; [lia|].
    destruct (lookup_lt_is_Some_2 (sentences d) i) as [t Ht]; [lia|].
    rewrite Hs, Ht. pose proof (sentence_read_indep fp dc ig s t) as Hind.
    destruct (sentence_type_read fp dc ig s) as [[[ok fp1] s1]|e]; simpl.
    2: { by rewrite Hind. }
    destruct Hind as (t1 & -> & Hdata). simpl. destruct ok.
    + apply IH.
      * simpl. rewrite length_insert. lia.
      * simpl. rewrite length_insert. lia.
      * simpl.
        rewrite !(take_S_r _ i) with (x := s1)
          by (apply list_lookup_insert_eq; lia).
        rewrite (take_S_r (<[i:=t1]> (sentences d)) i t1)
          by (apply list_lookup_insert_eq; lia).
        rewrite !take_insert_ge by lia. rewrite !fmap_app.
        rewrite Htake. simpl. by rewrite (Hdata eq_refl).
    + eexists. split; [done|]. discriminate.
Qed.
End CorpusIndependence.

(** X20.  What [corpus_type::read] returns and where it leaves the
    stream do not depend on what the corpus held before, and when it
    returns true neither do the gold trees, edge counts and parses of
    its sentences: they are those of a read into an empty corpus.  (The
    sentences that were there keep their [max_fscore] as the start of
    the running maximum.) *)
Theorem corpus_read_forgets_corpus `{LibC} `{TreeLib} `{Memory} fp dc ig
    (c : corpus_type tree) :
  match corpus_type_read fp dc ig c with
  | Ret (ok, fp', c') =>
      ∃ d', corpus_type_read fp dc ig corpus_type_default = Ret (ok, fp', d')
            ∧ (ok = true →
               sentence_data <$> sentences c' = sentence_data <$> sentences d')
  | Crash e => corpus_type_read fp dc ig corpus_type_default = Crash e
  end.
Proof.
  unfold corpus_type_read. destruct (fscanf_u fp) as [[n|] fp1].
  2: { eexists. split; [done|]. discriminate. }
  destruct (can_resize sentences_fit n); [|done].
  apply read_sentences_indep; simpl; [apply length_resize..|done].
Qed.
